(** * DevTasks server middleware: a shallow embedding

    The Express middleware of [server/src/middleware] is embedded as pure
    functions.  A middleware that calls [next()] returns [Next]; one that
    calls [next(err)] returns [NextErr err].  Shared mutable state (the
    rate limiter's [Map]) is passed explicitly, collaborators (the MongoDB
    collections, [jwt.verify]) are arguments, and what a handler writes to
    the console or to the response is part of its result.

    JavaScript numbers are taken at their integer values ([Z]); strings are
    sequences of one-byte code units. *)

From Stdlib Require Import ZArith String Ascii List Lia.
From stdpp Require Import gmap strings list fin_maps pretty.

Local Open Scope Z_scope.
Local Open Scope string_scope.

(** ** JavaScript truthiness of the primitive values the code tests *)

Definition truthy_number (n : Z) : bool := negb (Z.eqb n 0).

Definition truthy_string (s : string) : bool := negb (String.eqb s "").

(** [a || b] on an optional number / string property. *)
Definition number_or (a : option Z) (b : Z) : Z :=
  match a with
  | Some n => if truthy_number n then n else b
  | None => b
  end.

Definition string_or (a : option string) (b : string) : string :=
  match a with
  | Some s => if truthy_string s then s else b
  | None => b
  end.

(** [parts.join(sep)] *)
Definition join (sep : string) (parts : list string) : string :=
  String.concat sep parts.

(** * errorHandler.ts *)

Module ErrorHandler.

(** [class AppError extends Error]: the properties the middleware reads. *)
Record AppError := mkAppError {
  message : string;
  statusCode : Z;
  status : string;
  isOperational : bool
}.

(** The constructor: [status] is ['fail'] when the decimal rendering of the
    status code starts with a 4, and every [AppError] is operational. *)
Definition new_AppError (msg : string) (code : Z) : AppError :=
  {| message := msg;
     statusCode := code;
     status := if String.prefix "4" (pretty code) then "fail" else "error";
     isOperational := true |}.

(** What a middleware hands to the pipeline. *)
Inductive Outcome :=
  | Next
  | NextErr (err : AppError).

(** The [err: any] reaching [errorHandler]: the properties it inspects.
    [err_keyValue] and [err_errors] hold the entries of [err.keyValue] and
    the [message] of each value of [err.errors], when those objects exist. *)
Record JsError := mkJsError {
  err_message : string;
  err_stack : option string;
  err_name : string;
  err_code : option Z;
  err_statusCode : option Z;
  err_status : option string;
  err_isOperational : bool;
  err_keyValue : option (list (string * string));
  err_errors : option (list string)
}.

(** Values placed in a JSON response body. *)
Inductive BodyValue :=
  | BString (s : string)
  | BUndefined
  | BRawError (e : JsError).

Record Response := mkResponse {
  res_status : Z;
  res_body : list (string * BodyValue)
}.

(** One [console.error(label, err)] call. *)
Inductive LogEntry :=
  | ConsoleError (label : string) (err : AppError).

(** [sendErrorDev]: status, the raw error, its message and its stack. Nothing
    is written to the console. *)
Definition sendErrorDev (err : JsError) (code : Z) (st : string)
    (timestamp : string) : Response * list LogEntry :=
  ({| res_status := code;
      res_body := [("status", BString st);
                   ("error", BRawError err);
                   ("message", BString (err_message err));
                   ("stack", from_option BString BUndefined (err_stack err));
                   ("timestamp", BString timestamp)] |},
   []).

(** [sendErrorProd] *)
Definition sendErrorProd (err : AppError) (timestamp : string)
    : Response * list LogEntry :=
  if isOperational err then
    ({| res_status := statusCode err;
        res_body := [("status", BString (status err));
                     ("message", BString (message err));
                     ("timestamp", BString timestamp)] |},
     [])
  else
    ({| res_status := 500;
        res_body := [("status", BString "error");
                     ("message", BString "Something went wrong!");
                     ("timestamp", BString timestamp)] |},
     [ConsoleError "ERROR 💥:" err]).

(** [handleDuplicateKeyError]: [None] when [err.keyValue] is missing and
    [Object.keys] throws. An empty [keyValue] renders both holes as
    [undefined]. *)
Definition handleDuplicateKeyError (err : JsError) : option AppError :=
  match err_keyValue err with
  | None => None
  | Some kv =>
      let '(field, value) :=
        match kv with
        | [] => ("undefined", "undefined")
        | (k, v) :: _ => (k, v)
        end in
      Some (new_AppError
              (field ++ " '" ++ value ++
               "' already exists. Please choose another value.") 400)
  end.

(** [handleValidationError]: [None] when [err.errors] is missing. *)
Definition handleValidationError (err : JsError) : option AppError :=
  match err_errors err with
  | None => None
  | Some errors =>
      Some (new_AppError ("Invalid input data. " ++ join ". " errors) 400)
  end.

Definition handleJWTError : AppError :=
  new_AppError "Invalid token. Please log in again." 401.

Definition handleJWTExpiredError : AppError :=
  new_AppError "Your token has expired. Please log in again." 401.

(** [{ ...err }] followed by [error.message = err.message], after the
    defaults for [statusCode] and [status] were written into [err]. *)
Definition spread (err : JsError) (code : Z) (st : string) : AppError :=
  {| message := err_message err;
     statusCode := code;
     status := st;
     isOperational := err_isOperational err |}.

(** The production branch's chain of reassignments of [error]. *)
Definition normalize (err : JsError) (code : Z) (st : string)
    : option AppError :=
  let error := spread err code st in
  error ← (if bool_decide (err_code err = Some 11000)
           then handleDuplicateKeyError err else Some error);
  error ← (if String.eqb (err_name err) "ValidationError"
           then handleValidationError err else Some error);
  let error := if String.eqb (err_name err) "JsonWebTokenError"
               then handleJWTError else error in
  let error := if String.eqb (err_name err) "TokenExpiredError"
               then handleJWTExpiredError else error in
  Some error.

(** [errorHandler]: [node_env] is [process.env.NODE_ENV]; [None] is returned
    when the handler itself throws. *)
Definition errorHandler (node_env : option string) (err : JsError)
    (timestamp : string) : option (Response * list LogEntry) :=
  let code := number_or (err_statusCode err) 500 in
  let st := string_or (err_status err) "error" in
  if bool_decide (node_env = Some "development") then
    Some (sendErrorDev
            (mkJsError (err_message err) (err_stack err) (err_name err)
               (err_code err) (Some code) (Some st) (err_isOperational err)
               (err_keyValue err) (err_errors err))
            code st timestamp)
  else
    error ← normalize err code st;
    Some (sendErrorProd error timestamp).

End ErrorHandler.

(** * validation.ts: rateLimit *)

Module RateLimit.
Import ErrorHandler.

(** The value stored per client in [clients]. *)
Record Bucket := mkBucket {
  count : Z;
  resetTime : Z
}.

(** A header value handed to [res.setHeader]: a number, or a [Date] given by
    its epoch milliseconds. *)
Inductive HeaderValue :=
  | HNumber (n : Z)
  | HDate (ms : Z).

(** What one invocation leaves behind: the map, the call to [next] and the
    headers it set on the response. *)
Record Result := mkResult {
  clients_after : gmap string Bucket;
  outcome : Outcome;
  headers : list (string * HeaderValue)
}.

(** The clean-up loop: every entry with [now > data.resetTime] is deleted. *)
Definition prune (now : Z) (clients : gmap string Bucket)
    : gmap string Bucket :=
  filter (λ kv, ¬ (now > resetTime kv.2)) clients.

(** [Math.ceil(a / b)] for a positive divisor. *)
Definition ceil_div (a b : Z) : Z := - ((- a) / b).

(** The middleware returned by [rateLimit(windowMs, maxRequests)], run on
    the closure's map, [req.ip] and the value of [Date.now()]. *)
Definition rateLimit (windowMs maxRequests : Z)
    (clients : gmap string Bucket) (ip : option string) (now : Z) : Result :=
  let clientIP := string_or ip "unknown" in
  let clients := prune now clients in
  let '(clientData, clients) :=
    match clients !! clientIP with
    | Some data => (data, clients)
    | None =>
        let data := mkBucket 0 (now + windowMs) in
        (data, <[clientIP := data]> clients)
    end in
  if bool_decide (count clientData >= maxRequests) then
    let resetIn := ceil_div (resetTime clientData - now) 1000 in
    mkResult clients
      (NextErr (new_AppError
                  ("Too many requests. Try again in " ++ pretty resetIn ++
                   " seconds.") 429))
      []
  else
    let clientData := mkBucket (count clientData + 1) (resetTime clientData) in
    mkResult (<[clientIP := clientData]> clients)
      Next
      [("X-RateLimit-Limit", HNumber maxRequests);
       ("X-RateLimit-Remaining", HNumber (maxRequests - count clientData));
       ("X-RateLimit-Reset", HDate (resetTime clientData))].

(** A request as the limiter sees it. *)
Record Request := mkRequest {
  req_ip : option string;
  req_now : Z
}.

(** Successive invocations of one limiter instance: the final map and the
    responses in order. *)
Fixpoint run (windowMs maxRequests : Z) (clients : gmap string Bucket)
    (reqs : list Request) : gmap string Bucket * list Result :=
  match reqs with
  | [] => (clients, [])
  | r :: reqs' =>
      let res := rateLimit windowMs maxRequests clients (req_ip r) (req_now r) in
      let '(final, rest) := run windowMs maxRequests (clients_after res) reqs' in
      (final, res :: rest)
  end.

(** [res.getHeader(name)] on the headers one invocation set. *)
Definition header (name : string) (res : Result) : option HeaderValue :=
  snd <$> List.find (λ kv, String.eqb (fst kv) name) (headers res).

Definition allowed (res : Result) : bool :=
  match outcome res with
  | Next => true
  | NextErr _ => false
  end.

End RateLimit.

(** * validation.ts: validateBody *)

Module Validation.
Import ErrorHandler.

(** A value found in [req.body].  [JObject] stands for the non-primitive
    values (arrays, objects) and carries its [String(value)] coercion. *)
Inductive JsValue :=
  | JUndefined
  | JNull
  | JBool (b : bool)
  | JNumber (n : Z)
  | JNaN
  | JString (s : string)
  | JObject (repr : string).

(** [String(value)], the coercion [RegExp.prototype.test] and [Date.parse]
    apply to their argument. *)
Definition to_string (v : JsValue) : string :=
  match v with
  | JUndefined => "undefined"
  | JNull => "null"
  | JBool true => "true"
  | JBool false => "false"
  | JNumber n => pretty n
  | JNaN => "NaN"
  | JString s => s
  | JObject repr => repr
  end.

Definition is_string (v : JsValue) : bool :=
  match v with JString _ => true | _ => false end.

(** [typeof value === 'number'] *)
Definition is_number (v : JsValue) : bool :=
  match v with JNumber _ | JNaN => true | _ => false end.

Definition is_boolean (v : JsValue) : bool :=
  match v with JBool _ => true | _ => false end.

(** [isNaN(value)] on a value whose [typeof] is ['number']. *)
Definition isNaN (v : JsValue) : bool :=
  match v with JNaN => true | _ => false end.

(** [value === undefined || value === null || value === ''] *)
Definition is_empty (v : JsValue) : bool :=
  match v with
  | JUndefined | JNull => true
  | JString s => String.eqb s ""
  | _ => false
  end.

(** ** Regular expressions, matched by derivatives *)

Inductive Regex :=
  | RNone
  | REps
  | RChar (c : ascii)
  | RNotIn (excluded : ascii → bool)
  | RSeq (r1 r2 : Regex)
  | RAlt (r1 r2 : Regex)
  | RStar (r : Regex).

Definition RPlus (r : Regex) : Regex := RSeq r (RStar r).

Fixpoint nullable (r : Regex) : bool :=
  match r with
  | RNone | RChar _ | RNotIn _ => false
  | REps | RStar _ => true
  | RSeq r1 r2 => nullable r1 && nullable r2
  | RAlt r1 r2 => nullable r1 || nullable r2
  end.

Fixpoint deriv (c : ascii) (r : Regex) : Regex :=
  match r with
  | RNone | REps => RNone
  | RChar c' => if Ascii.eqb c c' then REps else RNone
  | RNotIn excluded => if excluded c then RNone else REps
  | RSeq r1 r2 =>
      if nullable r1
      then RAlt (RSeq (deriv c r1) r2) (deriv c r2)
      else RSeq (deriv c r1) r2
  | RAlt r1 r2 => RAlt (deriv c r1) (deriv c r2)
  | RStar r1 => RSeq (deriv c r1) (RStar r1)
  end.

(** [/^r$/.test(s)] *)
Fixpoint matches (r : Regex) (s : string) : bool :=
  match s with
  | EmptyString => nullable r
  | String c s' => matches (deriv c r) s'
  end.

(** [\s] on code units below 256. *)
Definition is_whitespace (c : ascii) : bool :=
  let n := nat_of_ascii c in
  (Nat.leb 9 n && Nat.leb n 13) || Nat.eqb n 32 || Nat.eqb n 160.

(** [[^\s@]] *)
Definition not_space_at : Regex :=
  RNotIn (λ c, is_whitespace c || Ascii.eqb c "@").

(** [/^[^\s@]+@[^\s@]+\.[^\s@]+$/] *)
Definition emailRegex : Regex :=
  RSeq (RPlus not_space_at)
    (RSeq (RChar "@")
       (RSeq (RPlus not_space_at)
          (RSeq (RChar ".") (RPlus not_space_at)))).

(** ** The schema *)

Inductive TypeTag := TString | TNumber | TBoolean | TEmail | TDate.

(** One entry of a [ValidationSchema].  An absent optional property is
    [None] ([false] for [required]); [pattern] is the [test] method of the
    rule's [RegExp], taken without the [g] and [y] flags. *)
Record Rules := mkRules {
  required : bool;
  type : option TypeTag;
  minLength : option Z;
  maxLength : option Z;
  min : option Z;
  max : option Z;
  enum : option (list string);
  pattern : option (string → bool)
}.

(** [Object.entries(schema)]: the entries in the order the loop visits
    them, which is declaration order for field names that are not array
    indices. *)
Definition ValidationSchema := list (string * Rules).

(** [req.body[field]] *)
Definition body_get (body : gmap string JsValue) (field : string) : JsValue :=
  default JUndefined (body !! field).

(** [rules.enum.includes(value)] *)
Definition includes (allowed : list string) (v : JsValue) : bool :=
  match v with
  | JString s => existsb (String.eqb s) allowed
  | _ => false
  end.

Definition push (errors : list string) (msg : string) : list string :=
  errors ++ [msg].

Section WithDate.

(** [isNaN(Date.parse(s))], which the language leaves to the engine. *)
Variable date_is_invalid : string → bool.

(** The [switch (rules.type)] block. *)
Definition check_type (field : string) (t : TypeTag) (value : JsValue)
    (errors : list string) : list string :=
  match t with
  | TString =>
      if negb (is_string value)
      then push errors (field ++ " must be a string") else errors
  | TNumber =>
      if negb (is_number value) || isNaN value
      then push errors (field ++ " must be a number") else errors
  | TBoolean =>
      if negb (is_boolean value)
      then push errors (field ++ " must be a boolean") else errors
  | TEmail =>
      if negb (matches emailRegex (to_string value))
      then push errors (field ++ " must be a valid email address")
      else errors
  | TDate =>
      if date_is_invalid (to_string value)
      then push errors (field ++ " must be a valid date") else errors
  end.

(** The block "String length validation". *)
Definition check_length (field : string) (rules : Rules) (value : JsValue)
    (errors : list string) : list string :=
  match value with
  | JString s =>
      let errors :=
        match minLength rules with
        | Some n =>
            if truthy_number n && (Z.of_nat (String.length s) <? n)%Z
            then push errors (field ++ " must be at least " ++ pretty n
                              ++ " characters long")
            else errors
        | None => errors
        end in
      match maxLength rules with
      | Some n =>
          if truthy_number n && (Z.of_nat (String.length s) >? n)%Z
          then push errors (field ++ " must not exceed " ++ pretty n
                            ++ " characters")
          else errors
      | None => errors
      end
  | _ => errors
  end.

(** The block "Number range validation"; a comparison with [NaN] is
    false. *)
Definition check_range (field : string) (rules : Rules) (value : JsValue)
    (errors : list string) : list string :=
  match value with
  | JNumber v =>
      let errors :=
        match min rules with
        | Some n =>
            if (v <? n)%Z
            then push errors (field ++ " must be at least " ++ pretty n)
            else errors
        | None => errors
        end in
      match max rules with
      | Some n =>
          if (v >? n)%Z
          then push errors (field ++ " must not exceed " ++ pretty n)
          else errors
      | None => errors
      end
  | _ => errors
  end.

(** The block "Enum validation". *)
Definition check_enum (field : string) (rules : Rules) (value : JsValue)
    (errors : list string) : list string :=
  match enum rules with
  | Some allowed =>
      if negb (includes allowed value)
      then push errors (field ++ " must be one of: " ++ join ", " allowed)
      else errors
  | None => errors
  end.

(** The block "Pattern validation". *)
Definition check_pattern (field : string) (rules : Rules) (value : JsValue)
    (errors : list string) : list string :=
  match pattern rules, value with
  | Some test, JString s =>
      if negb (test s)
      then push errors (field ++ " format is invalid") else errors
  | _, _ => errors
  end.

(** The body of the [for] loop for one schema entry. *)
Definition check_field (body : gmap string JsValue) (errors : list string)
    (entry : string * Rules) : list string :=
  let '(field, rules) := entry in
  let value := body_get body field in
  if required rules && is_empty value then
    push errors (field ++ " is required")
  else if is_empty value then
    errors
  else
    let errors :=
      match type rules with
      | Some t => check_type field t value errors
      | None => errors
      end in
    let errors := check_length field rules value errors in
    let errors := check_range field rules value errors in
    let errors := check_enum field rules value errors in
    check_pattern field rules value errors.

(** The [errors] array when the loop ends. *)
Definition validation_errors (schema : ValidationSchema)
    (body : gmap string JsValue) : list string :=
  fold_left (check_field body) schema [].

(** The middleware returned by [validateBody(schema)]. *)
Definition validateBody (schema : ValidationSchema)
    (body : gmap string JsValue) : Outcome :=
  let errors := validation_errors schema body in
  if (0 <? Z.of_nat (List.length errors))%Z then
    NextErr (new_AppError ("Validation failed: " ++ join "; " errors) 400)
  else Next.

End WithDate.

End Validation.

(** * auth.ts *)

Module Auth.
Import ErrorHandler.

(** A MongoDB [ObjectId], by its 24-digit hexadecimal rendering. *)
Definition ObjectId := string.

(** [a.equals(b)] *)
Definition equals (a b : ObjectId) : bool := String.eqb a b.

(** The outcome of an awaited [findOne]: a document, [null], or a rejected
    promise. *)
Inductive Lookup (A : Type) :=
  | Found (doc : A)
  | Missing
  | Rejected.
Arguments Found {A} doc.
Arguments Missing {A}.
Arguments Rejected {A}.

(** The fields of the stored documents that the gates read.  A project's
    [apmId] and [teamLeadId] are [None] when the stored document lacks
    them: the repository's project type makes the assistant manager and the
    team leader optional, its manager, its members and a task's assignee
    required. *)
Record User := mkUser {
  _id : ObjectId;
  email : string;
  role : string;
  isActive : bool;
  reportsTo : option ObjectId;
  directReports : list ObjectId
}.

Record Project := mkProject {
  pmId : ObjectId;
  apmId : option ObjectId;
  teamLeadId : option ObjectId;
  teamMembers : list ObjectId
}.

Record Task := mkTask {
  assignedTo : ObjectId;
  projectId : ObjectId
}.

(** The connected database: the [ObjectId] constructor of the driver
    ([None] when it throws on its argument) and the three collections. *)
Record Db := mkDb {
  new_ObjectId : string → option ObjectId;
  users_findOne : ObjectId → Lookup User;
  projects_findOne : ObjectId → Lookup Project;
  tasks_findOne : ObjectId → Lookup Task
}.

(** The error classes of the [jsonwebtoken] package that [jwt.verify]
    throws. *)
Inductive JwtErrorClass :=
  | JsonWebTokenError
  | TokenExpiredError
  | NotBeforeError.

(** Anything thrown inside a [try] block. *)
Inductive Thrown :=
  | ThrownJwt (c : JwtErrorClass)
  | ThrownOther.

(** [error instanceof jwt.JsonWebTokenError].  In [jsonwebtoken] the classes
    [TokenExpiredError] and [NotBeforeError] extend [JsonWebTokenError]
    (their prototypes are created from [JsonWebTokenError.prototype]), so
    the test holds for all three. *)
Definition instanceof_JsonWebTokenError (e : Thrown) : bool :=
  match e with
  | ThrownJwt _ => true
  | ThrownOther => false
  end.

(** [error instanceof jwt.TokenExpiredError] *)
Definition instanceof_TokenExpiredError (e : Thrown) : bool :=
  match e with
  | ThrownJwt TokenExpiredError => true
  | _ => false
  end.

Record JWTPayload := mkJWTPayload {
  userId : string;
  payload_email : string;
  payload_role : string;
  iat : Z;
  exp : Z
}.

(** What [protect] reads from its surroundings: the [authorization] header,
    [process.env.JWT_SECRET], [jwt.verify] and the module's [db] variable
    ([None] until [connectDB] has run, when [getDB] throws). *)
Record ProtectEnv := mkProtectEnv {
  authorization : option string;
  JWT_SECRET : option string;
  jwt_verify : string → string → JwtErrorClass + JWTPayload;
  getDB : option Db
}.

(** [s.split(sep)] for a one-character separator. *)
Fixpoint split (sep : ascii) (s : string) : list string :=
  match s with
  | EmptyString => [EmptyString]
  | String c s' =>
      if Ascii.eqb c sep then EmptyString :: split sep s'
      else match split sep s' with
           | part :: parts => String c part :: parts
           | [] => [String c EmptyString]
           end
  end.

(** Step 1 of [protect]: the token taken from the header. *)
Definition extract_token (header : option string) : option string :=
  match header with
  | Some h =>
      if truthy_string h && String.prefix "Bearer" h
      then nth_error (split " " h) 1
      else None
  | None => None
  end.

(** [!token] *)
Definition token_missing (token : option string) : bool :=
  match token with
  | Some t => negb (truthy_string t)
  | None => true
  end.

(** The [try] block of [protect]: the call to [next] and the user attached
    to the request, or what was thrown. *)
Definition protect_try (env : ProtectEnv) : Thrown + (Outcome * option User) :=
  let token := extract_token (authorization env) in
  if token_missing token then
    inr (NextErr (new_AppError
                    "You are not logged in! Please log in to get access." 401),
         None)
  else
    let token := default "" token in
    match JWT_SECRET env with
    | None =>
        inr (NextErr (new_AppError "JWT secret not configured" 500), None)
    | Some jwtSecret =>
        if negb (truthy_string jwtSecret) then
          inr (NextErr (new_AppError "JWT secret not configured" 500), None)
        else
          match jwt_verify env token jwtSecret with
          | inl c => inl (ThrownJwt c)
          | inr decoded =>
              match getDB env with
              | None => inl ThrownOther
              | Some db =>
                  match new_ObjectId db (userId decoded) with
                  | None => inl ThrownOther
                  | Some oid =>
                      match users_findOne db oid with
                      | Rejected => inl ThrownOther
                      | Missing =>
                          inr (NextErr (new_AppError
                                 "The user belonging to this token no longer exists."
                                 401), None)
                      | Found user =>
                          if negb (isActive user) then
                            inr (NextErr (new_AppError
                                   "Your account has been deactivated. Please contact support."
                                   401), None)
                          else inr (Next, Some user)
                      end
                  end
              end
          end
    end.

(** [protect], with its [catch] clause. *)
Definition protect (env : ProtectEnv) : Outcome * option User :=
  match protect_try env with
  | inr result => result
  | inl error =>
      if instanceof_JsonWebTokenError error then
        (NextErr (new_AppError "Invalid token. Please log in again." 401), None)
      else if instanceof_TokenExpiredError error then
        (NextErr (new_AppError
                    "Your token has expired. Please log in again." 401), None)
      else (NextErr (new_AppError "Authentication failed" 401), None)
  end.

(** [restrictTo(...roles)] *)
Definition restrictTo (roles : list string) (req_user : option User)
    : Outcome :=
  match req_user with
  | None => NextErr (new_AppError "User not authenticated" 401)
  | Some user =>
      if negb (existsb (String.eqb (role user)) roles) then
        NextErr (new_AppError
                   "You do not have permission to perform this action" 403)
      else Next
  end.

Inductive ResourceType := RTProject | RTTask | RTUser.

(** [field.equals(id)] on a field the document may lack: calling [equals]
    on [undefined] throws a TypeError, rendered as [None]. *)
Definition field_equals (field : option ObjectId) (id : ObjectId)
    : option bool :=
  match field with
  | Some value => Some (equals value id)
  | None => None
  end.

(** [a || b] when an operand may throw: [b] is evaluated only if [a] is
    false, and a throw ends the evaluation. *)
Definition or_else (a b : option bool) : option bool :=
  match a with
  | Some true => Some true
  | Some false => b
  | None => None
  end.

(** [hasProjectAccess]; [None] when the evaluation throws. *)
Definition hasProjectAccess (project : Project) (user : User)
    : option bool :=
  or_else (Some (equals (pmId project) (_id user)))
    (or_else (field_equals (apmId project) (_id user))
       (or_else (field_equals (teamLeadId project) (_id user))
          (Some (existsb (λ memberId, equals memberId (_id user))
                   (teamMembers project))))).

(** [hasTaskAccess]; [None] when the evaluation throws.  With
    [taskProject] null each optional chain is [undefined]; with a project,
    [?.] guards the project only, not its fields. *)
Definition hasTaskAccess (task : Task) (taskProject : option Project)
    (user : User) : option bool :=
  or_else (Some (equals (assignedTo task) (_id user)))
    (or_else
       (from_option (λ p, Some (equals (pmId p) (_id user))) (Some false)
          taskProject)
       (or_else
          (from_option (λ p, field_equals (apmId p) (_id user)) (Some false)
             taskProject)
          (from_option (λ p, field_equals (teamLeadId p) (_id user))
             (Some false) taskProject))).

(** [hasUserAccess] *)
Definition hasUserAccess (targetUser user : User) : bool :=
  from_option (λ r, equals r (_id user)) false (reportsTo targetUser)
  || existsb (λ reportId, equals reportId (_id targetUser))
       (directReports user).

(** The [switch] of [checkResourceAccess] for a principal that is not the
    CEO; [None] when something inside throws. *)
Definition check_resource (db : Db) (resourceType : ResourceType)
    (user : User) (resourceId : string) : option Outcome :=
  match resourceType with
  | RTProject =>
      oid ← new_ObjectId db resourceId;
      match projects_findOne db oid with
      | Rejected => None
      | Missing => Some (NextErr (new_AppError "Project not found" 404))
      | Found project =>
          access ← hasProjectAccess project user;
          if negb access then
            Some (NextErr (new_AppError
                             "You do not have access to this project" 403))
          else Some Next
      end
  | RTTask =>
      oid ← new_ObjectId db resourceId;
      match tasks_findOne db oid with
      | Rejected => None
      | Missing => Some (NextErr (new_AppError "Task not found" 404))
      | Found task =>
          match projects_findOne db (projectId task) with
          | Rejected => None
          | found =>
              let taskProject :=
                match found with Found p => Some p | _ => None end in
              access ← hasTaskAccess task taskProject user;
              if negb access then
                Some (NextErr (new_AppError
                                 "You do not have access to this task" 403))
              else Some Next
          end
      end
  | RTUser =>
      if String.eqb resourceId (_id user) then Some Next
      else
        oid ← new_ObjectId db resourceId;
        match users_findOne db oid with
        | Rejected => None
        | Missing => Some (NextErr (new_AppError "User not found" 404))
        | Found targetUser =>
            if negb (hasUserAccess targetUser user) then
              Some (NextErr (new_AppError
                               "You do not have access to this user" 403))
            else Some Next
        end
  end.

(** The middleware returned by [checkResourceAccess(resourceType)], run on
    [req.user], [req.params.id] and the module's [db] variable. *)
Definition checkResourceAccess (resourceType : ResourceType)
    (get_db : option Db) (req_user : option User) (resourceId : string)
    : Outcome :=
  let attempt : option Outcome :=
    match req_user with
    | None => Some (NextErr (new_AppError "User not authenticated" 401))
    | Some user =>
        db ← get_db;
        if String.eqb (role user) "CEO" then Some Next
        else check_resource db resourceType user resourceId
    end in
  default (NextErr (new_AppError "Error checking resource access" 500))
    attempt.

End Auth.

(** * The validator's contract, as the specification words it

    Section 4.1: per field, (a) a required field that is absent, null or the
    empty string yields "required" and nothing else; (b) an absent field that
    is not required is skipped; otherwise every declared check among (c)
    type, (d) string length, (e) number range, (f) enumeration and (g)
    pattern is evaluated on its own, and each one that fails yields one
    message.  These definitions follow that text; they are compared with
    [Validation.validation_errors] below. *)

Module ValidatorContract.
Import Validation.

Inductive Check :=
  | CType (t : TypeTag)
  | CMinLength (n : Z)
  | CMaxLength (n : Z)
  | CMin (n : Z)
  | CMax (n : Z)
  | CEnum (allowed : list string)
  | CPattern (test : string → bool).

(** The checks a rule record declares, in the order (c) to (g). *)
Definition declared_checks (rules : Rules) : list Check :=
  option_list (CType <$> type rules)
  ++ option_list (CMinLength <$> minLength rules)
  ++ option_list (CMaxLength <$> maxLength rules)
  ++ option_list (CMin <$> min rules)
  ++ option_list (CMax <$> max rules)
  ++ option_list (CEnum <$> enum rules)
  ++ option_list (CPattern <$> pattern rules).

(** Whether a present value fails one check, taken on its own.  Length and
    pattern checks apply to strings, range checks to numbers. *)
Definition check_fails (date_is_invalid : string → bool) (c : Check)
    (v : JsValue) : bool :=
  match c, v with
  | CType TString, JString _ => false
  | CType TString, _ => true
  | CType TNumber, JNumber _ => false
  | CType TNumber, _ => true
  | CType TBoolean, JBool _ => false
  | CType TBoolean, _ => true
  | CType TEmail, _ => negb (matches emailRegex (to_string v))
  | CType TDate, _ => date_is_invalid (to_string v)
  | CMinLength n, JString s => (Z.of_nat (String.length s) <? n)%Z
  | CMaxLength n, JString s => (n <? Z.of_nat (String.length s))%Z
  | CMin n, JNumber x => (x <? n)%Z
  | CMax n, JNumber x => (n <? x)%Z
  | CEnum allowed, JString s => negb (bool_decide (s ∈ allowed))
  | CEnum _, _ => true
  | CPattern test, JString s => negb (test s)
  | _, _ => false
  end.

(** The message of a failed check. *)
Definition violation (field : string) (c : Check) : string :=
  match c with
  | CType TString => field ++ " must be a string"
  | CType TNumber => field ++ " must be a number"
  | CType TBoolean => field ++ " must be a boolean"
  | CType TEmail => field ++ " must be a valid email address"
  | CType TDate => field ++ " must be a valid date"
  | CMinLength n =>
      field ++ " must be at least " ++ pretty n ++ " characters long"
  | CMaxLength n => field ++ " must not exceed " ++ pretty n ++ " characters"
  | CMin n => field ++ " must be at least " ++ pretty n
  | CMax n => field ++ " must not exceed " ++ pretty n
  | CEnum allowed => field ++ " must be one of: " ++ join ", " allowed
  | CPattern _ => field ++ " format is invalid"
  end.

(** The checks of one field that fail on the payload. *)
Definition failing_checks (date_is_invalid : string → bool)
    (rules : Rules) (v : JsValue) : list Check :=
  List.filter (λ c, check_fails date_is_invalid c v) (declared_checks rules).

(** The messages one field contributes. *)
Definition field_violations (date_is_invalid : string → bool)
    (body : gmap string JsValue) (entry : string * Rules) : list string :=
  let v := body_get body (fst entry) in
  if is_empty v then
    if required (snd entry) then [fst entry ++ " is required"] else []
  else violation (fst entry) <$> failing_checks date_is_invalid (snd entry) v.

(** All messages, field by field in the rule set's order. *)
Definition violations (date_is_invalid : string → bool)
    (schema : ValidationSchema) (body : gmap string JsValue) : list string :=
  concat (field_violations date_is_invalid body <$> schema).

(** The number of failing checks across all fields; a missing required
    field counts as one. *)
Definition failure_count (date_is_invalid : string → bool)
    (schema : ValidationSchema) (body : gmap string JsValue) : nat :=
  sum_list ((λ entry : string * Rules,
               let v := body_get body (fst entry) in
               if is_empty v then (if required (snd entry) then 1 else 0)%nat
               else List.length (failing_checks date_is_invalid (snd entry) v))
            <$> schema).

(** A rule set in which no field sets [maxLength] to zero. *)
Definition maxLength_nonzero (schema : ValidationSchema) : Prop :=
  Forall (λ entry, maxLength (snd entry) ≠ Some 0%Z) schema.

End ValidatorContract.

(** * Properties of the error normalizer *)

Module ErrorHandlerProps.
Import ErrorHandler.

(** The body sent for a non-operational error in production. *)
Definition generic_response (timestamp : string) : Response :=
  {| res_status := 500;
     res_body := [("status", BString "error");
                  ("message", BString "Something went wrong!");
                  ("timestamp", BString timestamp)] |}.

Lemma new_AppError_operational msg code :
  isOperational (new_AppError msg code) = true.
Proof. reflexivity. Qed.

(** When no pattern of the production branch applies, [error] stays the
    copy of [err]. *)
Lemma normalize_unmatched err code st :
  err_code err ≠ Some 11000%Z →
  err_name err ≠ "ValidationError" →
  err_name err ≠ "JsonWebTokenError" →
  err_name err ≠ "TokenExpiredError" →
  normalize err code st = Some (spread err code st).
Proof.
  intros Hcode Hv Hj He. unfold normalize.
  rewrite bool_decide_eq_false_2 by assumption. cbn.
  apply String.eqb_neq in Hv, Hj, He. rewrite Hv. cbn. now rewrite Hj, He.
Qed.

(** C6: in minimal mode a non-operational error is answered with status 500,
    classification "error" and the generic message, whatever the error
    holds: the response has exactly the fields status, message and
    timestamp, so neither the raw message, the stack nor the raw object is
    in it, and two non-operational errors get the same response. *)
Theorem sendErrorProd_non_operational_generic (err : AppError)
    (timestamp : string) :
  isOperational err = false →
  (sendErrorProd err timestamp).1 = generic_response timestamp
  ∧ (∀ err', isOperational err' = false →
       (sendErrorProd err' timestamp).1 = (sendErrorProd err timestamp).1)
  ∧ (∀ key v, (key, v) ∈ res_body (sendErrorProd err timestamp).1 →
       key ≠ "error" ∧ key ≠ "stack" ∧ ∀ raw, v ≠ BRawError raw).
Proof.
  intros Hop. unfold sendErrorProd. rewrite Hop. cbn [fst].
  split; [reflexivity|]. split.
  - intros err' Hop'. now rewrite Hop'.
  - intros key v Hin. cbn in Hin.
    repeat (apply elem_of_cons in Hin as [Heq|Hin];
            [injection Heq as -> ->; repeat split; discriminate|]).
    now apply elem_of_nil in Hin.
Qed.

Definition secret_failure : AppError :=
  {| message := "connect ECONNREFUSED db.internal:27017 password=hunter2";
     statusCode := 503;
     status := "error";
     isOperational := false |}.

Lemma sendErrorProd_non_operational_generic_witness :
  (sendErrorProd secret_failure "2025-06-14T10:00:00.000Z").1
  = generic_response "2025-06-14T10:00:00.000Z".
Proof.
  exact (proj1 (sendErrorProd_non_operational_generic secret_failure
                  "2025-06-14T10:00:00.000Z" eq_refl)).
Defined.

(** A programming error as it reaches [errorHandler]. *)
Definition type_error : JsError :=
  {| err_message := "Cannot read properties of undefined (reading 'pmId')";
     err_stack := Some "TypeError: Cannot read properties of undefined";
     err_name := "TypeError";
     err_code := None;
     err_statusCode := None;
     err_status := None;
     err_isOperational := false;
     err_keyValue := None;
     err_errors := None |}.

(** C7 as stated fails: in development mode a non-operational error is
    answered and nothing is written to the console. *)
Lemma errorHandler_development_logs_nothing :
  err_isOperational type_error = false
  ∧ snd <$> errorHandler (Some "development") type_error
              "2025-06-14T10:00:00.000Z" = Some [].
Proof. split; reflexivity. Qed.

(** C7, amended: an error that is non-operational and matches none of the
    normalizer's patterns is logged server-side in minimal mode, with the
    generic response; in verbose mode the handler logs nothing. *)
Theorem errorHandler_logging_by_mode (node_env : option string)
    (err : JsError) (timestamp : string) :
  (node_env = Some "development" →
     snd <$> errorHandler node_env err timestamp = Some [])
  ∧ (node_env ≠ Some "development" →
     err_isOperational err = false →
     err_code err ≠ Some 11000%Z →
     err_name err ≠ "ValidationError" →
     err_name err ≠ "JsonWebTokenError" →
     err_name err ≠ "TokenExpiredError" →
     ∃ logged,
       isOperational logged = false
       ∧ message logged = err_message err
       ∧ errorHandler node_env err timestamp
         = Some (generic_response timestamp,
                 [ConsoleError "ERROR 💥:" logged])).
Proof.
  split.
  - intros ->. reflexivity.
  - intros Hmode Hop Hcode Hv Hj He. unfold errorHandler.
    rewrite bool_decide_eq_false_2 by assumption.
    rewrite normalize_unmatched by assumption. cbn.
    eexists. split; [|split; [|unfold sendErrorProd; cbn; rewrite Hop;
                                reflexivity]]; [exact Hop | reflexivity].
Qed.

Lemma errorHandler_logging_by_mode_witness :
  ∃ logged,
    errorHandler (Some "production") type_error "2025-06-14T10:00:00.000Z"
    = Some (generic_response "2025-06-14T10:00:00.000Z",
            [ConsoleError "ERROR 💥:" logged]).
Proof.
  destruct (proj2 (errorHandler_logging_by_mode (Some "production")
                     type_error "2025-06-14T10:00:00.000Z"))
    as (logged & _ & _ & H); try discriminate; try reflexivity.
  exists logged. exact H.
Defined.

End ErrorHandlerProps.

(** * Properties of the rate limiter *)

Module RateLimitProps.
Import ErrorHandler RateLimit.

(** The three informational headers of an allowed response. *)
Definition limit_headers (maxRequests : Z) (data : Bucket)
    : list (string * HeaderValue) :=
  [("X-RateLimit-Limit", HNumber maxRequests);
   ("X-RateLimit-Remaining", HNumber (maxRequests - count data));
   ("X-RateLimit-Reset", HDate (resetTime data))].

Definition too_many (resetTime now : Z) : AppError :=
  new_AppError ("Too many requests. Try again in "
                ++ pretty (ceil_div (resetTime - now) 1000) ++ " seconds.") 429.

(** The bucket the invocation works on: the live one, or a fresh one. *)
Definition current (windowMs : Z) (clients : gmap string Bucket)
    (ip : option string) (now : Z) : Bucket :=
  default (mkBucket 0 (now + windowMs))
    (prune now clients !! string_or ip "unknown").

Definition bump (data : Bucket) : Bucket :=
  mkBucket (count data + 1) (resetTime data).

Lemma prune_lookup_Some now (clients : gmap string Bucket) k b :
  prune now clients !! k = Some b ↔ clients !! k = Some b ∧ resetTime b >= now.
Proof.
  unfold prune. rewrite map_lookup_filter_Some. cbn. split.
  - intros [H1 H2]. split; [assumption|lia].
  - intros [H1 H2]. split; [assumption|lia].
Qed.

Lemma prune_lookup_None now (clients : gmap string Bucket) k :
  prune now clients !! k = None ↔
  clients !! k = None ∨ ∃ b, clients !! k = Some b ∧ now > resetTime b.
Proof.
  unfold prune. rewrite map_lookup_filter_None. cbn. split.
  - intros [H|H]; [now left|].
    destruct (clients !! k) as [b|] eqn:E; [|now left].
    right. exists b. split; [reflexivity|].
    destruct (Z_gt_dec now (resetTime b)); [assumption|].
    exfalso. exact (H b eq_refl n).
  - intros [H|(b & H1 & H2)]; [now left|].
    right. intros b' Hb'. rewrite H1 in Hb'. injection Hb' as <-. tauto.
Qed.

(** One invocation, read through the client's bucket. *)
Lemma rateLimit_rejects windowMs maxRequests clients ip now :
  count (current windowMs clients ip now) >= maxRequests →
  let data := current windowMs clients ip now in
  let res := rateLimit windowMs maxRequests clients ip now in
  outcome res = NextErr (too_many (resetTime data) now)
  ∧ headers res = []
  ∧ clients_after res !! string_or ip "unknown" = Some data
  ∧ ∀ k, k ≠ string_or ip "unknown" →
         clients_after res !! k = prune now clients !! k.
Proof.
  intros Hge. unfold current in *. unfold rateLimit.
  destruct (prune now clients !! string_or ip "unknown") as [data|] eqn:E;
    cbn in Hge |- *; rewrite bool_decide_eq_true_2 by assumption; cbn.
  - split; [reflexivity|]. split; [reflexivity|]. split; [assumption|].
    intros k _. reflexivity.
  - split; [reflexivity|]. split; [reflexivity|]. split.
    + apply lookup_insert_eq.
    + intros k Hk. now rewrite lookup_insert_ne.
Qed.

Lemma rateLimit_allows windowMs maxRequests clients ip now :
  ¬ count (current windowMs clients ip now) >= maxRequests →
  let data := bump (current windowMs clients ip now) in
  let res := rateLimit windowMs maxRequests clients ip now in
  outcome res = Next
  ∧ headers res = limit_headers maxRequests data
  ∧ clients_after res !! string_or ip "unknown" = Some data
  ∧ ∀ k, k ≠ string_or ip "unknown" →
         clients_after res !! k = prune now clients !! k.
Proof.
  intros Hlt. unfold current in *. unfold rateLimit.
  destruct (prune now clients !! string_or ip "unknown") as [data|] eqn:E;
    cbn in Hlt |- *; rewrite bool_decide_eq_false_2 by assumption; cbn.
  - split; [reflexivity|]. split; [reflexivity|]. split.
    + apply lookup_insert_eq.
    + intros k Hk. now rewrite lookup_insert_ne.
  - split; [reflexivity|]. split; [reflexivity|]. split.
    + apply lookup_insert_eq.
    + intros k Hk. now rewrite !lookup_insert_ne.
Qed.

(** Every bucket left by an invocation is live at that invocation's time,
    provided the window is not negative. *)
Lemma rateLimit_leaves_live windowMs maxRequests clients ip now k b :
  0 <= windowMs →
  clients_after (rateLimit windowMs maxRequests clients ip now) !! k = Some b →
  now <= resetTime b.
Proof.
  intros Hw Hk.
  assert (Hcur : now <= resetTime (current windowMs clients ip now)).
  { unfold current.
    destruct (prune now clients !! string_or ip "unknown") as [d|] eqn:E.
    - apply prune_lookup_Some in E. cbn. lia.
    - cbn. lia. }
  destruct (Z_ge_dec (count (current windowMs clients ip now)) maxRequests)
    as [Hge|Hlt].
  - destruct (rateLimit_rejects _ _ _ _ _ Hge) as (_ & _ & Hme & Hother).
    destruct (decide (k = string_or ip "unknown")) as [->|Hne].
    + rewrite Hme in Hk. injection Hk as <-. exact Hcur.
    + rewrite Hother in Hk by assumption.
      apply prune_lookup_Some in Hk. lia.
  - destruct (rateLimit_allows _ _ _ _ _ Hlt) as (_ & _ & Hme & Hother).
    destruct (decide (k = string_or ip "unknown")) as [->|Hne].
    + rewrite Hme in Hk. injection Hk as <-. exact Hcur.
    + rewrite Hother in Hk by assumption.
      apply prune_lookup_Some in Hk. lia.
Qed.

Lemma current_live windowMs clients ip now b :
  clients !! string_or ip "unknown" = Some b →
  now <= resetTime b →
  current windowMs clients ip now = b.
Proof.
  intros Hb Hlive. unfold current.
  assert (H : prune now clients !! string_or ip "unknown" = Some b).
  { apply prune_lookup_Some. split; [assumption|lia]. }
  now rewrite H.
Qed.

Lemma current_fresh windowMs clients ip now :
  prune now clients !! string_or ip "unknown" = None →
  current windowMs clients ip now = mkBucket 0 (now + windowMs).
Proof. intros H. unfold current. now rewrite H. Qed.

Lemma run_cons windowMs maxRequests clients r reqs :
  run windowMs maxRequests clients (r :: reqs)
  = let res := rateLimit windowMs maxRequests clients (req_ip r) (req_now r) in
    ((run windowMs maxRequests (clients_after res) reqs).1,
     res :: (run windowMs maxRequests (clients_after res) reqs).2).
Proof.
  cbn [run].
  now destruct (run windowMs maxRequests
                  (clients_after (rateLimit windowMs maxRequests clients
                                    (req_ip r) (req_now r))) reqs).
Qed.

(** An allowed request on a live or fresh bucket whose count is below the
    maximum: the outcome and the client's bucket afterwards. *)
Lemma step_allowed windowMs maxRequests clients ip now data :
  current windowMs clients ip now = data →
  count data < maxRequests →
  outcome (rateLimit windowMs maxRequests clients ip now) = Next
  ∧ clients_after (rateLimit windowMs maxRequests clients ip now)
      !! string_or ip "unknown" = Some (bump data).
Proof.
  intros Hcur Hlt.
  destruct (rateLimit_allows windowMs maxRequests clients ip now)
    as (Ho & _ & Hme & _); [rewrite Hcur; lia|].
  rewrite Hcur in Hme. now split.
Qed.

(** [ceil_div d 1000] is the least number of thousands that covers [d]. *)
Lemma ceil_div_covers (d : Z) :
  1000 * (ceil_div d 1000 - 1) < d <= 1000 * ceil_div d 1000.
Proof.
  unfold ceil_div.
  pose proof (Z.div_mod (- d) 1000 ltac:(lia)) as Hdm.
  pose proof (Z.mod_pos_bound (- d) 1000 ltac:(lia)) as Hm.
  lia.
Qed.

(** C5: with a window of 1000 ms and a maximum of 3, a client without a
    bucket that sends a request at [t1] and three more no later than
    [t1 + 1000] is allowed three times and then rejected with status 429 and
    the retry message computed from the time left in the window (the number
    of seconds is that time rounded up); a fifth request after [t1 + 1000]
    is allowed, leaves the client's bucket with count 1 and a new window,
    and no bucket that expired before it remains in the map. *)
Theorem rateLimit_window_1000_max_3 (clients : gmap string Bucket)
    (ip : option string) (t1 t2 t3 t4 t5 : Z) :
  clients !! string_or ip "unknown" = None →
  t2 <= t1 + 1000 → t3 <= t1 + 1000 → t4 <= t1 + 1000 →
  t1 + 1000 < t5 →
  let trace := run 1000 3 clients (mkRequest ip <$> [t1; t2; t3; t4; t5]) in
  outcome <$> trace.2
  = [Next; Next; Next; NextErr (too_many (t1 + 1000) t4); Next]
  ∧ statusCode (too_many (t1 + 1000) t4) = 429
  ∧ message (too_many (t1 + 1000) t4)
    = "Too many requests. Try again in "
      ++ pretty (ceil_div (t1 + 1000 - t4) 1000) ++ " seconds."
  ∧ trace.1 !! string_or ip "unknown" = Some (mkBucket 1 (t5 + 1000))
  ∧ (∀ k b, trace.1 !! k = Some b → t5 <= resetTime b)
  ∧ 1000 * (ceil_div (t1 + 1000 - t4) 1000 - 1) < t1 + 1000 - t4
    <= 1000 * ceil_div (t1 + 1000 - t4) 1000.
Proof.
  intros Hnone H2 H3 H4 H5 trace. subst trace.
  cbn [fmap list_fmap]. rewrite !run_cons. cbn [run req_ip req_now fst snd].
  set (r1 := rateLimit 1000 3 clients ip t1).
  set (r2 := rateLimit 1000 3 (clients_after r1) ip t2).
  set (r3 := rateLimit 1000 3 (clients_after r2) ip t3).
  set (r4 := rateLimit 1000 3 (clients_after r3) ip t4).
  set (r5 := rateLimit 1000 3 (clients_after r4) ip t5).
  destruct (step_allowed 1000 3 clients ip t1 (mkBucket 0 (t1 + 1000)))
    as [O1 S1]; [|cbn; lia|].
  { apply current_fresh, prune_lookup_None. now left. }
  fold r1 in O1, S1.
  destruct (step_allowed 1000 3 (clients_after r1) ip t2
              (mkBucket 1 (t1 + 1000))) as [O2 S2]; [|cbn; lia|].
  { now apply current_live. }
  fold r2 in O2, S2.
  destruct (step_allowed 1000 3 (clients_after r2) ip t3
              (mkBucket 2 (t1 + 1000))) as [O3 S3]; [|cbn; lia|].
  { now apply current_live. }
  fold r3 in O3, S3.
  assert (C4 : current 1000 (clients_after r3) ip t4 = mkBucket 3 (t1 + 1000)).
  { now apply current_live. }
  destruct (rateLimit_rejects 1000 3 (clients_after r3) ip t4)
    as (O4 & _ & S4 & _); [rewrite C4; cbn; lia|].
  rewrite C4 in O4, S4. fold r4 in O4, S4.
  destruct (step_allowed 1000 3 (clients_after r4) ip t5
              (mkBucket 0 (t5 + 1000))) as [O5 S5]; [|cbn; lia|].
  { apply current_fresh, prune_lookup_None. right.
    eexists. split; [exact S4|]. cbn. lia. }
  fold r5 in O5, S5.
  cbn [fmap list_fmap]. rewrite O1, O2, O3, O4, O5.
  split; [reflexivity|]. split; [reflexivity|]. split; [reflexivity|].
  split; [exact S5|].
  split; [|apply ceil_div_covers].
  intros k b Hk. subst r5.
  eapply rateLimit_leaves_live; [|exact Hk]. lia.
Qed.

Lemma rateLimit_window_1000_max_3_witness :
  let trace := run 1000 3 ∅
                 (mkRequest (Some "10.0.0.7") <$> [0; 100; 250; 999; 1001]) in
  outcome <$> trace.2
  = [Next; Next; Next; NextErr (too_many 1000 999); Next]
  ∧ trace.1 !! "10.0.0.7" = Some (mkBucket 1 2001).
Proof.
  destruct (rateLimit_window_1000_max_3 ∅ (Some "10.0.0.7") 0 100 250 999 1001)
    as (H1 & _ & _ & H2 & _); [reflexivity|lia|lia|lia|lia|].
  split; [exact H1|exact H2].
Defined.

(** C8 as stated fails: the second request of a client against a limiter
    with maximum 1 is rejected with status 429, and that invocation sets none
    of the three headers. *)
Lemma rateLimit_rejection_sets_no_header :
  let trace := run 1000 1 ∅ (mkRequest (Some "10.0.0.7") <$> [0; 10]) in
  ∃ res, trace.2 !! 1%nat = Some res
    ∧ outcome res = NextErr (too_many 1000 10)
    ∧ statusCode (too_many 1000 10) = 429
    ∧ header "X-RateLimit-Limit" res = None
    ∧ header "X-RateLimit-Remaining" res = None
    ∧ header "X-RateLimit-Reset" res = None.
Proof. eexists. repeat split. Qed.

(** C8, amended: every response the limiter lets through carries
    X-RateLimit-Limit (the maximum), X-RateLimit-Remaining (the maximum minus
    the bucket's count after the increment) and X-RateLimit-Reset (the
    bucket's reset time); the 429 rejection is issued before any header is
    set and carries none of them. *)
Theorem rateLimit_headers_on_allowed_only (windowMs maxRequests : Z)
    (clients : gmap string Bucket) (ip : option string) (now : Z) :
  let res := rateLimit windowMs maxRequests clients ip now in
  match outcome res with
  | Next =>
      ∃ data, clients_after res !! string_or ip "unknown" = Some data
        ∧ header "X-RateLimit-Limit" res = Some (HNumber maxRequests)
        ∧ header "X-RateLimit-Remaining" res
          = Some (HNumber (maxRequests - count data))
        ∧ header "X-RateLimit-Reset" res = Some (HDate (resetTime data))
  | NextErr err => statusCode err = 429 ∧ headers res = []
  end.
Proof.
  intros res. subst res.
  destruct (Z_ge_dec (count (current windowMs clients ip now)) maxRequests)
    as [Hge|Hlt].
  - destruct (rateLimit_rejects _ _ _ _ _ Hge) as (Ho & Hh & _).
    rewrite Ho. split; [reflexivity|exact Hh].
  - destruct (rateLimit_allows _ _ _ _ _ Hlt) as (Ho & Hh & Hme & _).
    rewrite Ho. eexists. split; [exact Hme|].
    unfold header. rewrite Hh. repeat split.
Qed.

(** The invariant of the client map. *)
Definition within_limit (maxRequests : Z) (clients : gmap string Bucket)
    : Prop :=
  map_Forall (λ _ b, count b <= maxRequests) clients.

Definition remaining_not_negative (res : Result) : Prop :=
  allowed res = true →
  ∃ n, header "X-RateLimit-Remaining" res = Some (HNumber n) ∧ 0 <= n.

Lemma current_within_limit windowMs maxRequests clients ip now :
  0 <= maxRequests →
  within_limit maxRequests clients →
  count (current windowMs clients ip now) <= maxRequests.
Proof.
  intros Hmax Hinv. unfold current.
  destruct (prune now clients !! string_or ip "unknown") as [d|] eqn:E; cbn.
  - apply prune_lookup_Some in E as [E _]. exact (Hinv _ _ E).
  - exact Hmax.
Qed.

Lemma rateLimit_keeps_within_limit windowMs maxRequests clients ip now :
  0 <= maxRequests →
  within_limit maxRequests clients →
  within_limit maxRequests
    (clients_after (rateLimit windowMs maxRequests clients ip now))
  ∧ remaining_not_negative (rateLimit windowMs maxRequests clients ip now).
Proof.
  intros Hmax Hinv.
  pose proof (current_within_limit windowMs maxRequests clients ip now
                Hmax Hinv) as Hcur.
  assert (Hpruned : ∀ k b, prune now clients !! k = Some b →
                           count b <= maxRequests).
  { intros k b [Hk _]%prune_lookup_Some. exact (Hinv _ _ Hk). }
  destruct (Z_ge_dec (count (current windowMs clients ip now)) maxRequests)
    as [Hge|Hlt].
  - destruct (rateLimit_rejects _ _ _ _ _ Hge) as (Ho & _ & Hme & Hother).
    split.
    + intros k b Hk.
      destruct (decide (k = string_or ip "unknown")) as [->|Hne].
      * rewrite Hme in Hk. injection Hk as <-. exact Hcur.
      * rewrite Hother in Hk by assumption. eauto.
    + unfold remaining_not_negative, allowed. rewrite Ho. discriminate.
  - destruct (rateLimit_allows _ _ _ _ _ Hlt) as (_ & Hh & Hme & Hother).
    split.
    + intros k b Hk.
      destruct (decide (k = string_or ip "unknown")) as [->|Hne].
      * rewrite Hme in Hk. injection Hk as <-. cbn. lia.
      * rewrite Hother in Hk by assumption. eauto.
    + intros _. unfold header. rewrite Hh. cbn.
      eexists. split; [reflexivity|]. lia.
Qed.

Lemma run_keeps_within_limit windowMs maxRequests reqs :
  0 <= maxRequests →
  ∀ clients, within_limit maxRequests clients →
    within_limit maxRequests (run windowMs maxRequests clients reqs).1
    ∧ Forall remaining_not_negative
        (run windowMs maxRequests clients reqs).2.
Proof.
  intros Hmax. induction reqs as [|r reqs IH]; intros clients Hinv.
  - split; [exact Hinv|constructor].
  - rewrite run_cons. cbn [fst snd].
    destruct (rateLimit_keeps_within_limit windowMs maxRequests clients
                (req_ip r) (req_now r) Hmax Hinv) as [Hnext Hrem].
    destruct (IH _ Hnext) as [Hfinal Hrest].
    split; [exact Hfinal|]. constructor; assumption.
Qed.

(** C10: for a maximum that is not negative, after any sequence of
    invocations of a limiter (which starts with an empty map) every bucket
    has a count of at most the maximum, and every allowed response carries
    an X-RateLimit-Remaining value that is not negative. *)
Theorem rateLimit_count_within_max (windowMs maxRequests : Z)
    (reqs : list Request) :
  0 <= maxRequests →
  (∀ ip b, (run windowMs maxRequests ∅ reqs).1 !! ip = Some b →
           count b <= maxRequests)
  ∧ ∀ res, res ∈ (run windowMs maxRequests ∅ reqs).2 →
      allowed res = true →
      ∃ n, header "X-RateLimit-Remaining" res = Some (HNumber n) ∧ 0 <= n.
Proof.
  intros Hmax.
  destruct (run_keeps_within_limit windowMs maxRequests reqs Hmax ∅)
    as [Hfinal Hres].
  { intros k b Hk. now rewrite lookup_empty in Hk. }
  split; [exact Hfinal|].
  intros res Hin. rewrite Forall_forall in Hres. exact (Hres res Hin).
Qed.

Lemma rateLimit_count_within_max_witness :
  (∀ ip b,
     (run 1000 3 ∅ (mkRequest (Some "10.0.0.7") <$> [0; 100; 250; 999; 1001])).1
       !! ip = Some b → count b <= 3)
  ∧ ∀ res,
      res ∈ (run 1000 3 ∅
               (mkRequest (Some "10.0.0.7") <$> [0; 100; 250; 999; 1001])).2 →
      allowed res = true →
      ∃ n, header "X-RateLimit-Remaining" res = Some (HNumber n) ∧ 0 <= n.
Proof.
  apply (rateLimit_count_within_max 1000 3
           (mkRequest (Some "10.0.0.7") <$> [0; 100; 250; 999; 1001])).
  lia.
Defined.

End RateLimitProps.

(** * Properties of the schema validator *)

Module ValidationProps.
Import ErrorHandler Validation ValidatorContract.

Example emailRegex_samples :
  matches emailRegex <$> ["a@b.c"; "first.last@devtasks.io"; "a@b"; "@b.c";
                          "a b@c.d"; "a@@b.c"; "a@b."]
  = [true; true; false; false; false; false; false].
Proof. reflexivity. Qed.

Lemma push_if (b : bool) errors msg :
  (if b then push errors msg else errors)
  = (errors ++ (if b then [msg] else []))%list.
Proof. destruct b; [reflexivity|]. now rewrite app_nil_r. Qed.

Lemma includes_elem_of allowed s :
  existsb (String.eqb s) allowed = bool_decide (s ∈ allowed).
Proof.
  induction allowed as [|a allowed IH]; cbn.
  - symmetry. apply bool_decide_eq_false_2. apply not_elem_of_nil.
  - destruct (String.eqb_spec s a) as [->|Hne]; cbn.
    + symmetry. apply bool_decide_eq_true_2. apply list_elem_of_here.
    + rewrite IH. apply bool_decide_ext. rewrite elem_of_cons. tauto.
Qed.

(** A zero [minLength] is never checked by the code, and never fails. *)
Lemma minLength_guard n (s : string) :
  truthy_number n && (Z.of_nat (String.length s) <? n)%Z
  = (Z.of_nat (String.length s) <? n)%Z.
Proof.
  unfold truthy_number. destruct (Z.eqb_spec n 0) as [->|_]; cbn; [|reflexivity].
  symmetry. apply Z.ltb_ge. lia.
Qed.

Lemma maxLength_guard n (s : string) :
  n ≠ 0%Z →
  truthy_number n && (Z.of_nat (String.length s) >? n)%Z
  = (n <? Z.of_nat (String.length s))%Z.
Proof.
  intros Hn. unfold truthy_number.
  destruct (Z.eqb_spec n 0) as [->|_]; [contradiction|]. cbn.
  apply Z.gtb_ltb.
Qed.

Lemma check_type_violation date field t value errors :
  check_type date field t value errors
  = (errors ++ (if check_fails date (CType t) value
                then [violation field (CType t)] else []))%list.
Proof.
  unfold check_type. destruct t; rewrite push_if; f_equal;
    destruct value; reflexivity.
Qed.

Ltac flatten_appends :=
  repeat (rewrite <- app_assoc; cbn [app]); rewrite ?app_nil_r.

Definition failed (date : string → bool) (field : string) (v : JsValue)
    (checks : list Check) : list string :=
  violation field <$> List.filter (λ c, check_fails date c v) checks.

Lemma failed_app date field v checks1 checks2 :
  failed date field v (checks1 ++ checks2)
  = (failed date field v checks1 ++ failed date field v checks2)%list.
Proof. unfold failed. now rewrite List.filter_app, fmap_app. Qed.

Lemma failed_one date field v c :
  failed date field v [c]
  = if check_fails date c v then [violation field c] else [].
Proof. unfold failed. cbn [List.filter]. now destruct (check_fails date c v). Qed.

Lemma type_stage date field ty v errors :
  match ty with
  | Some t => check_type date field t v errors
  | None => errors
  end
  = (errors ++ failed date field v (option_list (CType <$> ty)))%list.
Proof.
  destruct ty as [t|]; [|cbn; now rewrite app_nil_r].
  rewrite check_type_violation.
  change (option_list (CType <$> Some t)) with [CType t].
  now rewrite failed_one.
Qed.

Lemma length_stage date field rules v errors :
  maxLength rules ≠ Some 0%Z →
  check_length field rules v errors
  = (errors
     ++ failed date field v (option_list (CMinLength <$> minLength rules))
     ++ failed date field v (option_list (CMaxLength <$> maxLength rules)))%list.
Proof.
  intros Hmax. unfold check_length.
  destruct (minLength rules) as [lo|], (maxLength rules) as [hi|];
    destruct v; cbn; rewrite ?app_nil_r; try reflexivity;
    rewrite ?push_if, ?minLength_guard, ?(maxLength_guard hi) by congruence;
    repeat match goal with
           | |- context [if ?c then _ else _] => destruct c; cbn
           end;
    unfold push; flatten_appends; reflexivity.
Qed.

Lemma range_stage date field rules v errors :
  check_range field rules v errors
  = (errors
     ++ failed date field v (option_list (CMin <$> min rules))
     ++ failed date field v (option_list (CMax <$> max rules)))%list.
Proof.
  unfold check_range.
  destruct (min rules) as [lo|], (max rules) as [hi|];
    destruct v; cbn; rewrite ?app_nil_r; try reflexivity;
    rewrite ?push_if, ?Z.gtb_ltb;
    repeat match goal with
           | |- context [if ?c then _ else _] => destruct c; cbn
           end;
    unfold push; flatten_appends; reflexivity.
Qed.

Lemma enum_stage date field rules v errors :
  check_enum field rules v errors
  = (errors ++ failed date field v (option_list (CEnum <$> enum rules)))%list.
Proof.
  unfold check_enum.
  destruct (enum rules) as [allowed|]; [|cbn; now rewrite app_nil_r].
  change (option_list (CEnum <$> Some allowed)) with [CEnum allowed].
  rewrite failed_one, push_if. f_equal.
  destruct v; cbn; try reflexivity.
  now rewrite includes_elem_of.
Qed.

Lemma pattern_stage date field rules v errors :
  check_pattern field rules v errors
  = (errors ++ failed date field v (option_list (CPattern <$> pattern rules)))%list.
Proof.
  unfold check_pattern.
  destruct (pattern rules) as [test|]; [|cbn; now rewrite app_nil_r].
  change (option_list (CPattern <$> Some test)) with [CPattern test].
  rewrite failed_one.
  destruct v; cbn; rewrite ?app_nil_r; try reflexivity.
  now rewrite push_if.
Qed.

(** One iteration of the loop appends exactly the field's violations, unless
    the field sets [maxLength] to zero. *)
Lemma check_field_violations date body errors entry :
  maxLength entry.2 ≠ Some 0%Z →
  check_field date body errors entry
  = (errors ++ field_violations date body entry)%list.
Proof.
  destruct entry as [field rules]. cbn [snd]. intros HmaxL.
  unfold check_field, field_violations. cbn [fst snd].
  destruct (is_empty (body_get body field)) eqn:Hempty.
  { rewrite andb_true_r.
    destruct (required rules); [reflexivity|now rewrite app_nil_r]. }
  rewrite andb_false_r. cbn zeta.
  rewrite (pattern_stage date), (enum_stage date), (range_stage date),
    (length_stage date), type_stage by assumption.
  change (violation field <$> failing_checks date rules (body_get body field))
    with (failed date field (body_get body field) (declared_checks rules)).
  unfold declared_checks. rewrite !failed_app.
  flatten_appends. reflexivity.
Qed.

Lemma fold_check_field date body schema :
  maxLength_nonzero schema →
  ∀ errors,
    fold_left (check_field date body) schema errors
    = (errors ++ violations date schema body)%list.
Proof.
  unfold violations.
  induction 1 as [|entry schema Hentry _ IH]; intros errors; cbn.
  - now rewrite app_nil_r.
  - rewrite IH, check_field_violations by assumption.
    now rewrite <- app_assoc.
Qed.

Lemma violations_count date schema body :
  List.length (violations date schema body) = failure_count date schema body.
Proof.
  unfold violations, failure_count.
  induction schema as [|[field rules] schema IH]; [reflexivity|].
  cbn [fmap list_fmap concat sum_list sum_list_with fst snd].
  rewrite length_app. unfold sum_list in IH. rewrite IH. f_equal.
  unfold field_violations. cbn [fst snd].
  destruct (is_empty (body_get body field)).
  - now destruct (required rules).
  - apply length_fmap.
Qed.

(** The validator against its contract: when no field of the rule set sets
    [maxLength] to zero, the messages are those of the checks that fail
    individually, field by field in the rule set's order, so there are as
    many messages as failing checks; when no check fails the middleware calls
    [next()], and otherwise it passes on one error of status 400 that joins
    the messages. *)
Theorem validateBody_refines_contract (date : string → bool)
    (schema : ValidationSchema) (body : gmap string JsValue) :
  maxLength_nonzero schema →
  validation_errors date schema body = violations date schema body
  ∧ List.length (validation_errors date schema body)
    = failure_count date schema body
  ∧ (violations date schema body = [] →
     validateBody date schema body = Next)
  ∧ (violations date schema body ≠ [] →
     validateBody date schema body
     = NextErr (new_AppError
                  ("Validation failed: "
                   ++ join "; " (violations date schema body)) 400)).
Proof.
  intros Hschema.
  assert (Heq : validation_errors date schema body
                = violations date schema body).
  { unfold validation_errors. now rewrite fold_check_field. }
  split; [exact Heq|]. split.
  - rewrite Heq. apply violations_count.
  - unfold validateBody. rewrite Heq.
    destruct (violations date schema body) as [|msg msgs]; split;
      try reflexivity; try congruence.
Qed.

(** The schema of the usage example in validation.ts, extended with an
    optional numeric field. *)
Definition userSchema : ValidationSchema :=
  [("email", mkRules true (Some TEmail) None None None None None None);
   ("password", mkRules true (Some TString) (Some 8) None None None None None);
   ("role", mkRules true None None None None None
              (Some ["CEO"; "PM"; "APM"; "ENGINEER"]) None);
   ("age", mkRules false (Some TNumber) None None (Some 18) (Some 99)
             None None)].

Definition bad_signup : gmap string JsValue :=
  list_to_map [("email", JString "nobody"); ("password", JString "short");
               ("role", JString "INTERN"); ("age", JNumber 12)].

Lemma userSchema_maxLength_nonzero : maxLength_nonzero userSchema.
Proof. repeat constructor; discriminate. Qed.

Lemma validateBody_refines_contract_witness :
  validation_errors (λ _, false) userSchema bad_signup
  = ["email must be a valid email address";
     "password must be at least 8 characters long";
     "role must be one of: CEO, PM, APM, ENGINEER";
     "age must be at least 18"]
  ∧ validation_errors (λ _, false) userSchema bad_signup
    = violations (λ _, false) userSchema bad_signup.
Proof.
  split; [reflexivity|].
  exact (proj1 (validateBody_refines_contract (λ _, false) userSchema
                  bad_signup userSchema_maxLength_nonzero)).
Defined.

(** C4 fails on the code for a rule that sets [maxLength] to zero: the guard
    [rules.maxLength && ...] reads 0 as "not set", so a non-empty string
    passes although the maximum-length check, taken on its own, fails.  The
    range checks use [!== undefined] and do report a bound of zero. *)
Theorem validateBody_skips_maxLength_zero (date : string → bool) :
  let schema := [("nickname", mkRules false None None (Some 0) None None
                                None None)] in
  let body : gmap string JsValue := {[ "nickname" := JString "bob" ]} in
  validation_errors date schema body = []
  ∧ validateBody date schema body = Next
  ∧ failing_checks date (mkRules false None None (Some 0) None None None None)
      (JString "bob") = [CMaxLength 0]
  ∧ violations date schema body = ["nickname must not exceed 0 characters"]
  ∧ validation_errors date
      [("level", mkRules false None None None None (Some 0) None None)]
      {[ "level" := JNumber 3 ]}
    = ["level must not exceed 0"].
Proof. repeat split. Qed.

(** C9: a field whose value is the empty string and whose rule does not set
    [required] adds no message, whatever its rule declares; the rule set
    validates as if the field's entry were not there, and the field is
    handled exactly as when it is absent from the payload. *)
Theorem empty_string_optional_field_skipped (date : string → bool)
    (body : gmap string JsValue) (field : string) (rules : Rules) :
  required rules = false →
  body !! field = Some (JString "") →
  (∀ errors, check_field date body errors (field, rules) = errors)
  ∧ (∀ before after,
       validation_errors date (before ++ (field, rules) :: after)%list body
       = validation_errors date (before ++ after)%list body)
  ∧ (∀ errors,
       check_field date (delete field body) errors (field, rules)
       = check_field date body errors (field, rules)).
Proof.
  intros Hreq Hfield.
  assert (Hskip : ∀ errors, check_field date body errors (field, rules) = errors).
  { intros errors. unfold check_field, body_get. rewrite Hfield, Hreq.
    reflexivity. }
  split; [exact Hskip|]. split.
  - intros before after. unfold validation_errors.
    rewrite !fold_left_app. cbn [fold_left]. now rewrite Hskip.
  - intros errors. rewrite Hskip.
    unfold check_field, body_get. rewrite lookup_delete_eq, Hreq.
    reflexivity.
Qed.

(** A rule the empty string would violate in every declared check. *)
Definition strict_code_rule : Rules :=
  mkRules false (Some TNumber) (Some 3) None None None (Some ["A1"; "B2"])
    (Some (λ s, String.eqb s "A1")).

Lemma empty_string_optional_field_skipped_witness :
  validation_errors (λ _, false) [("code", strict_code_rule)]
    {[ "code" := JString "" ]} = []
  ∧ validation_errors (λ _, false) [("code", strict_code_rule)]
      {[ "code" := JString "x" ]}
    = ["code must be a number"; "code must be at least 3 characters long";
       "code must be one of: A1, B2"; "code format is invalid"].
Proof.
  split; [|reflexivity].
  exact (proj1 (proj2 (empty_string_optional_field_skipped (λ _, false)
                         {[ "code" := JString "" ]} "code" strict_code_rule
                         eq_refl eq_refl)) [] []).
Defined.

End ValidationProps.

(** * Properties of the authentication and resource-access gates *)

Module AuthProps.
Import ErrorHandler Auth.

Example extract_token_samples :
  extract_token <$> [Some "Bearer abc.def"; Some "Bearer"; Some "Bearer ";
                     Some "Basic abc"; None]
  = [Some "abc.def"; None; Some ""; None; None].
Proof. reflexivity. Qed.

Lemma equals_eq a b : equals a b = true ↔ b = a.
Proof. unfold equals. rewrite String.eqb_eq. split; congruence. Qed.


(** The stored project carries its two optional identifiers. *)
Definition carries_ids (project : Project) : Prop :=
  is_Some (apmId project) ∧ is_Some (teamLeadId project).



(** Where the test reaches a field the document lacks, it throws: for a
    principal that is not the manager, a project without [apmId], or with
    an [apmId] of someone else and without [teamLeadId]. *)
Lemma hasProjectAccess_throws project user :
  _id user ≠ pmId project →
  apmId project = None
  ∨ (apmId project ≠ Some (_id user) ∧ teamLeadId project = None) →
  hasProjectAccess project user = None.
Proof.
  intros Hpm Hmissing. unfold hasProjectAccess.
  assert (Epm : equals (pmId project) (_id user) = false).
  { destruct (equals (pmId project) (_id user)) eqn:E; [|reflexivity].
    apply equals_eq in E. congruence. }
  rewrite Epm. cbn [or_else].
  destruct Hmissing as [->|[Hapm ->]]; [reflexivity|].
  destruct (apmId project) as [apm|]; [|reflexivity]. cbn [field_equals or_else].
  destruct (equals apm (_id user)) eqn:E; [|reflexivity].
  apply equals_eq in E. congruence.
Qed.

Lemma not_CEO user : role user ≠ "CEO" → String.eqb (role user) "CEO" = false.
Proof. apply String.eqb_neq. Qed.


Definition alice : User := mkUser "64a000000000000000000001" "alice@devtasks.io" "PM" true None [].
Definition carol : User := mkUser "64a000000000000000000003" "carol@devtasks.io" "ENGINEER" true (Some "64a000000000000000000001") [].
Definition erin : User := mkUser "64a000000000000000000005" "erin@devtasks.io" "ENGINEER" true None [].
Definition boss : User := mkUser "64a000000000000000000009" "boss@devtasks.io" "CEO" true None [].

Definition apollo : Project :=
  mkProject "64a000000000000000000001" (Some "64a000000000000000000002")
    (Some "64a000000000000000000003") ["64a000000000000000000004"].

Lemma apollo_carries_ids : carries_ids apollo.
Proof. split; eexists; reflexivity. Qed.

(** A project run without an assistant manager; carol leads its team. *)
Definition hermes : Project :=
  mkProject "64a000000000000000000001" None
    (Some "64a000000000000000000003") ["64a000000000000000000004"].

Definition hermes_db : Db :=
  {| new_ObjectId := λ s, if Nat.eqb (String.length s) 24 then Some s else None;
     users_findOne := λ _, Missing;
     projects_findOne := λ oid,
       if String.eqb oid "64b000000000000000000002" then Found hermes
       else Missing;
     tasks_findOne := λ oid,
       if String.eqb oid "64c000000000000000000003"
       then Found (mkTask "64a000000000000000000005" "64b000000000000000000002")
       else Missing |}.

(** A store with one project and one task whose project was deleted. *)
Definition sample_db : Db :=
  {| new_ObjectId := λ s, if Nat.eqb (String.length s) 24 then Some s else None;
     users_findOne := λ _, Missing;
     projects_findOne := λ oid,
       if String.eqb oid "64b000000000000000000001" then Found apollo
       else Missing;
     tasks_findOne := λ oid,
       if String.eqb oid "64c000000000000000000001"
       then Found (mkTask "64a000000000000000000003" "64b0000000000000000000ff")
       else Missing |}.



(** C3: for a principal that is not the CEO and an existing task whose
    parent project is not found, the task gate grants access exactly when
    the principal is the task's assignee; the missing project is not an
    error of its own: the only failure is the 403 of a principal that is
    not the assignee, never a 404 or a 500. *)
Theorem task_gate_assignee_only_without_project (db : Db) (user : User)
    (resourceId : string) (oid : ObjectId) (task : Task) :
  role user ≠ "CEO" →
  new_ObjectId db resourceId = Some oid →
  tasks_findOne db oid = Found task →
  projects_findOne db (projectId task) = Missing →
  let gate := checkResourceAccess RTTask (Some db) (Some user) resourceId in
  (gate = Next ↔ _id user = assignedTo task)
  ∧ (_id user ≠ assignedTo task →
     gate = NextErr (new_AppError "You do not have access to this task" 403))
  ∧ (∀ err, gate = NextErr err → statusCode err = 403).
Proof.
  intros Hrole Hoid Htask Hproject gate. subst gate.
  unfold checkResourceAccess. cbn.
  rewrite (not_CEO _ Hrole), Hoid. cbn. rewrite Htask, Hproject.
  unfold hasTaskAccess. cbn.
  rewrite <- equals_eq.
  destruct (equals (assignedTo task) (_id user)); cbn.
  - split; [tauto|]. split; [congruence|]. discriminate.
  - split; [split; discriminate|]. split; [reflexivity|].
    intros err [= <-]. reflexivity.
Qed.

Lemma task_gate_assignee_only_without_project_witness :
  checkResourceAccess RTTask (Some sample_db) (Some carol)
    "64c000000000000000000001" = Next
  ∧ checkResourceAccess RTTask (Some sample_db) (Some alice)
      "64c000000000000000000001"
    = NextErr (new_AppError "You do not have access to this task" 403).
Proof.
  split.
  - apply (task_gate_assignee_only_without_project sample_db carol
             "64c000000000000000000001" "64c000000000000000000001"
             (mkTask "64a000000000000000000003" "64b0000000000000000000ff"));
      [discriminate|reflexivity|reflexivity|reflexivity|reflexivity].
  - apply (task_gate_assignee_only_without_project sample_db alice
             "64c000000000000000000001" "64c000000000000000000001"
             (mkTask "64a000000000000000000003" "64b0000000000000000000ff"));
      [discriminate|reflexivity|reflexivity|reflexivity|discriminate].
Defined.

Definition invalid_token : AppError :=
  new_AppError "Invalid token. Please log in again." 401.

Definition token_expired : AppError :=
  new_AppError "Your token has expired. Please log in again." 401.

(** Whatever [jwt.verify] throws is caught by the first [instanceof] test. *)
Lemma protect_verify_throws (env : ProtectEnv) (token secret : string)
    (c : JwtErrorClass) :
  extract_token (authorization env) = Some token →
  token ≠ "" →
  JWT_SECRET env = Some secret →
  secret ≠ "" →
  jwt_verify env token secret = inl c →
  protect env = (NextErr invalid_token, None).
Proof.
  intros Htoken Hne Hsecret Hse Hverify. unfold protect, protect_try.
  rewrite Htoken. cbn. unfold truthy_string.
  apply String.eqb_neq in Hne, Hse. rewrite Hne. cbn.
  rewrite Hsecret, Hse. cbn. rewrite Hverify. reflexivity.
Qed.

(** C2 fails on the code for an expired token: [TokenExpiredError] is a
    subclass of [JsonWebTokenError] and the [catch] clause tests the base
    class first, so an expired token is answered with the "invalid token"
    message, the answer given for a bad signature, and the "token expired"
    branch is never taken. *)
Theorem protect_expired_token_gets_invalid_message (env : ProtectEnv)
    (token secret : string) :
  extract_token (authorization env) = Some token →
  token ≠ "" →
  JWT_SECRET env = Some secret →
  secret ≠ "" →
  jwt_verify env token secret = inl TokenExpiredError →
  protect env = (NextErr invalid_token, None)
  ∧ message invalid_token ≠ message token_expired
  ∧ (protect env).1 ≠ NextErr token_expired.
Proof.
  intros Htoken Hne Hsecret Hse Hverify.
  rewrite (protect_verify_throws env token secret TokenExpiredError)
    by assumption.
  repeat split; discriminate.
Qed.

(** A request whose token has expired. *)
Definition expired_request : ProtectEnv :=
  {| authorization := Some "Bearer eyJhbGciOi.eyJleHAiOjE3.c2lnbmF0dXJl";
     JWT_SECRET := Some "your-super-secret-jwt-key";
     jwt_verify := λ _ _, inl TokenExpiredError;
     getDB := Some sample_db |}.

Lemma protect_expired_token_gets_invalid_message_witness :
  protect expired_request = (NextErr invalid_token, None)
  ∧ statusCode invalid_token = 401.
Proof.
  split; [|reflexivity].
  apply (protect_expired_token_gets_invalid_message expired_request
           "eyJhbGciOi.eyJleHAiOjE3.c2lnbmF0dXJl" "your-super-secret-jwt-key");
    [reflexivity|discriminate|reflexivity|discriminate|reflexivity].
Defined.

(** The parts of the authentication gate that do not depend on the class of
    the thrown error: a request without an authorization header fails with
    401 and the "not logged in" message, and a token that verifies and
    resolves to a user whose [isActive] is false fails with 401 and the
    "deactivated" message. *)
Theorem protect_no_header_and_deactivated (env : ProtectEnv) :
  (authorization env = None →
   protect env
   = (NextErr (new_AppError
                 "You are not logged in! Please log in to get access." 401),
      None))
  ∧ (∀ token secret decoded db oid user,
       extract_token (authorization env) = Some token → token ≠ "" →
       JWT_SECRET env = Some secret → secret ≠ "" →
       jwt_verify env token secret = inr decoded →
       getDB env = Some db →
       new_ObjectId db (userId decoded) = Some oid →
       users_findOne db oid = Found user →
       isActive user = false →
       protect env
       = (NextErr (new_AppError
                     "Your account has been deactivated. Please contact support."
                     401),
          None)).
Proof.
  split.
  - intros Hnone. unfold protect, protect_try. now rewrite Hnone.
  - intros token secret decoded db oid user Htoken Hne Hsecret Hse Hverify
      Hdb Hoid Huser Hactive.
    unfold protect, protect_try. rewrite Htoken. cbn. unfold truthy_string.
    apply String.eqb_neq in Hne, Hse. rewrite Hne. cbn.
    rewrite Hsecret, Hse. cbn. rewrite Hverify, Hdb, Hoid, Huser, Hactive.
    reflexivity.
Qed.

Definition dormant : User :=
  mkUser "64a000000000000000000007" "old@devtasks.io" "ENGINEER" false None [].

Definition dormant_request : ProtectEnv :=
  {| authorization := Some "Bearer eyJhbGciOi.eyJ1c2VySWQi.c2lnbmF0dXJl";
     JWT_SECRET := Some "your-super-secret-jwt-key";
     jwt_verify := λ _ _,
       inr (mkJWTPayload "64a000000000000000000007" "old@devtasks.io"
              "ENGINEER" 1718000000 1720592000);
     getDB := Some {| new_ObjectId := Some;
                      users_findOne := λ _, Found dormant;
                      projects_findOne := λ _, Missing;
                      tasks_findOne := λ _, Missing |} |}.

Lemma protect_no_header_and_deactivated_witness :
  protect (mkProtectEnv None (Some "k") (λ _ _, inl JsonWebTokenError) None)
  = (NextErr (new_AppError
                "You are not logged in! Please log in to get access." 401),
     None)
  ∧ protect dormant_request
    = (NextErr (new_AppError
                  "Your account has been deactivated. Please contact support."
                  401),
       None).
Proof.
  split.
  - apply (proj1 (protect_no_header_and_deactivated _)). reflexivity.
  - eapply (proj2 (protect_no_header_and_deactivated dormant_request));
      [reflexivity|discriminate|reflexivity|discriminate|reflexivity
      |reflexivity|reflexivity|reflexivity|reflexivity].
Defined.

End AuthProps.

(** * validation.ts: validateObjectId *)

Module ObjectIdFormat.
Import ErrorHandler Validation.

(** [r{n}] *)
Fixpoint RRepeat (n : nat) (r : Regex) : Regex :=
  match n with
  | O => REps
  | S n' => RSeq r (RRepeat n' r)
  end.

Definition is_hex_digit (c : ascii) : bool :=
  let n := nat_of_ascii c in
  (Nat.leb 48 n && Nat.leb n 57)
  || (Nat.leb 97 n && Nat.leb n 102)
  || (Nat.leb 65 n && Nat.leb n 70).

(** [[0-9a-fA-F]], as the class that excludes every other character. *)
Definition hex_digit : Regex := RNotIn (λ c, negb (is_hex_digit c)).

(** [/^[0-9a-fA-F]{24}$/] *)
Definition objectIdRegex : Regex := RRepeat 24 hex_digit.

(** The middleware returned by [validateObjectId(paramName)], run on
    [req.params]; [paramName] defaults to ['id'], and a missing parameter
    is tested as the string ["undefined"]. *)
Definition validateObjectId (paramName : option string)
    (params : gmap string string) : Outcome :=
  let paramName := default "id" paramName in
  let id := params !! paramName in
  if negb (matches objectIdRegex (default "undefined" id)) then
    NextErr (new_AppError ("Invalid " ++ paramName ++ " format") 400)
  else Next.

End ObjectIdFormat.

(** * client/src/store/slices/authSlice.ts *)

Module AuthSlice.

(** The client's [User] type. Dates are epoch milliseconds. *)
Record User := mkUser {
  id : string;
  name : string;
  email : string;
  avatarUrl : option string;
  createdAt : Z;
  updatedAt : Z;
  isActive : bool
}.

Record AuthState := mkAuthState {
  user : option User;
  isAuthenticated : bool;
  loading : bool;
  error : option string
}.

Definition initialState : AuthState :=
  {| user := None; isAuthenticated := false; loading := false;
     error := None |}.

(** The actions the slice exports. *)
Inductive Action :=
  | loginStart
  | loginSuccess (payload : User)
  | loginFailure (payload : string)
  | logout.

(** The slice's reducer; each case writes the fields its reducer assigns and
    keeps the others. *)
Definition reducer (state : AuthState) (action : Action) : AuthState :=
  match action with
  | loginStart =>
      {| user := user state; isAuthenticated := isAuthenticated state;
         loading := true; error := None |}
  | loginSuccess payload =>
      {| user := Some payload; isAuthenticated := true; loading := false;
         error := None |}
  | loginFailure payload =>
      {| user := None; isAuthenticated := false; loading := false;
         error := Some payload |}
  | logout =>
      {| user := None; isAuthenticated := false; loading := loading state;
         error := None |}
  end.

(** The store's state after dispatching the actions in order. *)
Definition dispatch_all (actions : list Action) : AuthState :=
  fold_left reducer actions initialState.

End AuthSlice.

(** * server/src/config/database.ts *)

Module Database.

(** A client created by [new MongoClient(uri, options)]; [options] is the
    module's constant. *)
Record MongoClient := mkClient { client_uri : string }.

(** The handle returned by [client.db(dbName)]. *)
Record DbHandle := mkDbHandle {
  db_client : MongoClient;
  db_name : string
}.

(** The module's variables [client] and [db], [None] while unassigned. *)
Record State := mkState {
  client : option MongoClient;
  db : option DbHandle
}.

Definition initial : State := {| client := None; db := None |}.

Record Env := mkEnv {
  MONGODB_URI : option string;
  DB_NAME : option string
}.

(** How the outside answers during one [connectDB]: whether the
    [MongoClient] constructor accepts the URI, whether [client.connect()]
    and the ping resolve, and the position of the first [createIndex] call
    that rejects, if any. *)
Record Server := mkServer {
  uri_ok : bool;
  connect_ok : bool;
  ping_ok : bool;
  failing_index : option nat
}.

Inductive LogLine :=
  | ConsoleLog (text : string)
  | ConsoleErrorLine (text : string).

Inductive IndexKey := Ascending | Descending | Text.

Inductive IndexOption := NoOption | Unique | Named (index_name : string).

Record IndexSpec := mkIndex {
  collection : string;
  keys : list (string * IndexKey);
  option_ : IndexOption
}.

(** The [createIndex] calls of [createIndexes], in order. *)
Definition indexes : list IndexSpec :=
  [mkIndex "users" [("email", Ascending)] Unique;
   mkIndex "users" [("role", Ascending)] NoOption;
   mkIndex "users" [("reportsTo", Ascending)] NoOption;
   mkIndex "users" [("firstName", Text); ("lastName", Text)]
     (Named "user_search_index");
   mkIndex "projects" [("pmId", Ascending)] NoOption;
   mkIndex "projects" [("apmId", Ascending)] NoOption;
   mkIndex "projects" [("status", Ascending)] NoOption;
   mkIndex "projects" [("teamMembers", Ascending)] NoOption;
   mkIndex "projects" [("name", Text); ("description", Text)]
     (Named "project_search_index");
   mkIndex "tasks" [("projectId", Ascending)] NoOption;
   mkIndex "tasks" [("assignedTo", Ascending)] NoOption;
   mkIndex "tasks" [("status", Ascending)] NoOption;
   mkIndex "tasks" [("dueDate", Ascending)] NoOption;
   mkIndex "timeTracking" [("userId", Ascending); ("createdAt", Descending)]
     NoOption;
   mkIndex "timeTracking" [("projectId", Ascending); ("createdAt", Descending)]
     NoOption;
   mkIndex "timeTracking" [("taskId", Ascending)] NoOption].

(** [createIndexes]: the indexes created and the console lines.  The first
    rejected call, or an unassigned [db], ends the [try] block; the [catch]
    logs and does not rethrow. *)
Definition createIndexes (st : State) (failing : option nat)
    : list IndexSpec * list LogLine :=
  let start := ConsoleLog "🔄 Creating database indexes..." in
  let failed := ConsoleErrorLine "❌ Failed to create indexes:" in
  match db st with
  | None => ([], [start; failed])
  | Some _ =>
      match failing with
      | Some i =>
          if Nat.ltb i (List.length indexes)
          then (take i indexes, [start; failed])
          else (indexes,
                [start; ConsoleLog "✅ Database indexes created successfully"])
      | None =>
          (indexes,
           [start; ConsoleLog "✅ Database indexes created successfully"])
      end
  end.

(** What one call of [connectDB] leaves: the module's variables, whether
    the promise resolved ([true]) or the error was rethrown, the indexes
    created and the console lines. *)
Record Connected := mkConnected {
  state_after : State;
  resolved : bool;
  created : list IndexSpec;
  console : list LogLine
}.

Definition connectDB (env : Env) (server : Server) (st : State) : Connected :=
  let mongoURI := string_or (MONGODB_URI env) "mongodb://localhost:27017/devtasks" in
  let connecting := ConsoleLog "🔄 Connecting to MongoDB..." in
  let failed := ConsoleErrorLine "❌ MongoDB connection failed:" in
  if negb (uri_ok server) then
    mkConnected st false [] [connecting; failed]
  else
    let c := mkClient mongoURI in
    let st := mkState (Some c) (db st) in
    if negb (connect_ok server) then
      mkConnected st false [] [connecting; failed]
    else
      let dbName := string_or (DB_NAME env) "devtasks" in
      let st := mkState (client st) (Some (mkDbHandle c dbName)) in
      if negb (ping_ok server) then
        mkConnected st false [] [connecting; failed]
      else
        let '(made, lines) := createIndexes st (failing_index server) in
        mkConnected st true made
          ([connecting;
            ConsoleLog ("✅ Connected to MongoDB database: " ++ dbName)]
           ++ lines).

(** [getDB] and [getClient]: [None] when they throw. *)
Definition getDB (st : State) : option DbHandle := db st.

Definition getClient (st : State) : option MongoClient := client st.

(** [closeDB]: closes the client when there is one, logs, and assigns
    nothing; [close_ok] tells whether [client.close()] resolves. *)
Definition closeDB (close_ok : bool) (st : State) : State * list LogLine :=
  match client st with
  | Some _ =>
      if close_ok
      then (st, [ConsoleLog "✅ MongoDB connection closed"])
      else (st, [ConsoleErrorLine "❌ Error closing MongoDB connection:"])
  | None => (st, [])
  end.

(** [dbUtils.isConnected] *)
Definition isConnected (ping_resolves : bool) (st : State) : bool :=
  match db st with
  | None => false
  | Some _ => ping_resolves
  end.

End Database.

Module RegexProps.
Import ErrorHandler Validation.

(** The strings a regular expression denotes. *)
Inductive Matches : Regex → string → Prop :=
  | MEps : Matches REps ""
  | MChar c : Matches (RChar c) (String c "")
  | MNotIn excluded c :
      excluded c = false → Matches (RNotIn excluded) (String c "")
  | MSeq r1 r2 s1 s2 :
      Matches r1 s1 → Matches r2 s2 → Matches (RSeq r1 r2) (s1 ++ s2)
  | MAltL r1 r2 s : Matches r1 s → Matches (RAlt r1 r2) s
  | MAltR r1 r2 s : Matches r2 s → Matches (RAlt r1 r2) s
  | MStarNil r : Matches (RStar r) ""
  | MStarApp r s1 s2 :
      Matches r s1 → Matches (RStar r) s2 → Matches (RStar r) (s1 ++ s2).

Lemma append_cons c (s t : string) : String c s ++ t = String c (s ++ t).
Proof. reflexivity. Qed.

Lemma append_nil_r (s : string) : s ++ "" = s.
Proof.
  induction s as [|c s IH]; [reflexivity|]. now rewrite append_cons, IH.
Qed.

Lemma append_is_nil (s1 s2 : string) : s1 ++ s2 = "" → s1 = "" ∧ s2 = "".
Proof. destruct s1; [intros H; now split|discriminate]. Qed.

Lemma append_is_cons (s1 s2 : string) c s :
  s1 ++ s2 = String c s →
  (s1 = "" ∧ s2 = String c s) ∨ ∃ s1', s1 = String c s1' ∧ s = s1' ++ s2.
Proof.
  destruct s1 as [|c1 s1]; intros H; [now left|].
  rewrite append_cons in H. injection H as -> <-. right. eauto.
Qed.

Lemma Matches_seq_inv r1 r2 s :
  Matches (RSeq r1 r2) s →
  ∃ s1 s2, s = s1 ++ s2 ∧ Matches r1 s1 ∧ Matches r2 s2.
Proof. inversion 1; subst; eauto. Qed.

Lemma Matches_alt_inv r1 r2 s :
  Matches (RAlt r1 r2) s → Matches r1 s ∨ Matches r2 s.
Proof. inversion 1; subst; tauto. Qed.

Lemma Matches_notin_inv excluded s :
  Matches (RNotIn excluded) s → ∃ c, s = String c "" ∧ excluded c = false.
Proof. inversion 1; subst; eauto. Qed.

Lemma Matches_char_inv c s : Matches (RChar c) s → s = String c "".
Proof. now inversion 1. Qed.

Lemma nullable_Matches r : nullable r = true ↔ Matches r "".
Proof.
  induction r; cbn.
  - split; [discriminate|inversion 1].
  - split; [constructor|reflexivity].
  - split; [discriminate|inversion 1].
  - split; [discriminate|inversion 1].
  - rewrite andb_true_iff, IHr1, IHr2. split.
    + intros [H1 H2]. exact (MSeq _ _ "" "" H1 H2).
    + intros (s1 & s2 & Heq & H1 & H2)%Matches_seq_inv.
      symmetry in Heq. apply append_is_nil in Heq as [-> ->]. now split.
  - rewrite orb_true_iff, IHr1, IHr2. split.
    + intros [H|H]; [now apply MAltL|now apply MAltR].
    + apply Matches_alt_inv.
  - split; [constructor|reflexivity].
Qed.

Lemma star_cons_inv r c s :
  Matches (RStar r) (String c s) →
  ∃ s1 s2, s = s1 ++ s2 ∧ Matches r (String c s1) ∧ Matches (RStar r) s2.
Proof.
  remember (RStar r) as rs eqn:Hr. remember (String c s) as cs eqn:Hs.
  intros H. revert s Hs.
  induction H as [| | | | | | |r' s1 s2 H1 _ H2 IH2]; intros s' Hs;
    try discriminate.
  injection Hr as ->.
  apply append_is_cons in Hs as [[-> ->]|(s1' & -> & ->)].
  - now apply IH2.
  - eauto.
Qed.

Lemma deriv_Matches r : ∀ c s, Matches (deriv c r) s ↔ Matches r (String c s).
Proof.
  induction r as [| |c|excluded|r1 IHr1 r2 IHr2|r1 IHr1 r2 IHr2|r IHr];
    intros a s; cbn.
  - split; inversion 1.
  - split; inversion 1.
  - destruct (Ascii.eqb_spec a c) as [->|Hne]; split.
    + inversion 1. constructor.
    + intros H%Matches_char_inv. injection H as ->. constructor.
    + inversion 1.
    + intros H%Matches_char_inv. congruence.
  - destruct (excluded a) eqn:E; split.
    + inversion 1.
    + intros (c & Heq & Hc)%Matches_notin_inv. congruence.
    + inversion 1. now constructor.
    + intros (c & Heq & Hc)%Matches_notin_inv. injection Heq as _ ->.
      constructor.
  - assert (Hseq : Matches (RSeq (deriv a r1) r2) s →
                   Matches (RSeq r1 r2) (String a s)).
    { intros (s1 & s2 & -> & H1 & H2)%Matches_seq_inv.
      apply IHr1 in H1. exact (MSeq _ _ (String a s1) s2 H1 H2). }
    assert (Hinv : Matches (RSeq r1 r2) (String a s) →
                   (Matches r1 "" ∧ Matches r2 (String a s))
                   ∨ Matches (RSeq (deriv a r1) r2) s).
    { intros (s1 & s2 & Heq & H1 & H2)%Matches_seq_inv.
      symmetry in Heq.
      apply append_is_cons in Heq as [[-> ->]|(s1' & -> & ->)].
      - left. now split.
      - right. apply IHr1 in H1. now constructor. }
    destruct (nullable r1) eqn:E; split.
    + intros [H|H]%Matches_alt_inv; [now apply Hseq|].
      apply nullable_Matches in E. apply IHr2 in H.
      exact (MSeq _ _ "" _ E H).
    + intros [[_ H]|H]%Hinv; [apply MAltR; now apply IHr2|now apply MAltL].
    + exact Hseq.
    + intros [[H _]|H]%Hinv; [|exact H].
      apply nullable_Matches in H. congruence.
  - split.
    + intros [H|H]%Matches_alt_inv;
        [apply MAltL; now apply IHr1|apply MAltR; now apply IHr2].
    + intros [H|H]%Matches_alt_inv;
        [apply MAltL; now apply IHr1|apply MAltR; now apply IHr2].
  - split.
    + intros (s1 & s2 & -> & H1 & H2)%Matches_seq_inv.
      apply IHr in H1. exact (MStarApp _ (String a s1) s2 H1 H2).
    + intros (s1 & s2 & -> & H1 & H2)%star_cons_inv.
      apply IHr in H1. now constructor.
Qed.

Theorem matches_Matches r s : matches r s = true ↔ Matches r s.
Proof.
  revert r. induction s as [|c s IH]; intros r; cbn.
  - apply nullable_Matches.
  - rewrite IH. apply deriv_Matches.
Qed.

(** Every character of a string satisfies a test. *)
Fixpoint all_chars (test : ascii → bool) (s : string) : bool :=
  match s with
  | EmptyString => true
  | String c s' => test c && all_chars test s'
  end.

Lemma all_chars_app test (s1 s2 : string) :
  all_chars test (s1 ++ s2) = all_chars test s1 && all_chars test s2.
Proof.
  induction s1 as [|c s1 IH]; [reflexivity|].
  rewrite append_cons. cbn. now rewrite IH, andb_assoc.
Qed.

Lemma length_append (s1 s2 : string) :
  String.length (s1 ++ s2) = (String.length s1 + String.length s2)%nat.
Proof.
  induction s1 as [|c s1 IH]; [reflexivity|].
  rewrite append_cons. cbn. now rewrite IH.
Qed.

Lemma Matches_star_notin excluded s :
  Matches (RStar (RNotIn excluded)) s
  ↔ all_chars (λ c, negb (excluded c)) s = true.
Proof.
  split.
  - remember (RStar (RNotIn excluded)) as rs eqn:Hr. intros H.
    induction H as [| | | | | | |r s1 s2 H1 _ H2 IH2]; try discriminate;
      [reflexivity|].
    injection Hr as ->.
    apply Matches_notin_inv in H1 as (c & -> & Hc).
    change (String c "" ++ s2) with (String c s2). cbn.
    rewrite IH2 by reflexivity.
    destruct (excluded c); [discriminate Hc|reflexivity].
  - induction s as [|c s IH]; cbn; [constructor|].
    intros [Hc Hs]%andb_true_iff. apply negb_true_iff in Hc.
    apply (MStarApp _ (String c "") s); [now constructor|auto].
Qed.

Lemma Matches_plus_notin excluded s :
  Matches (RPlus (RNotIn excluded)) s
  ↔ s ≠ "" ∧ all_chars (λ c, negb (excluded c)) s = true.
Proof.
  unfold RPlus. split.
  - intros (s1 & s2 & -> & (c & -> & Hc)%Matches_notin_inv
            & H2%Matches_star_notin)%Matches_seq_inv.
    change (String c "" ++ s2) with (String c s2).
    split; [discriminate|]. cbn.
    destruct (excluded c); [discriminate Hc|exact H2].
  - intros [Hne Hall]. destruct s as [|c s]; [congruence|].
    cbn in Hall. apply andb_true_iff in Hall as [Hc Hs].
    apply negb_true_iff in Hc.
    apply (MSeq _ _ (String c "") s); [now constructor|].
    now apply Matches_star_notin.
Qed.

Lemma Matches_repeat_notin excluded n s :
  Matches (ObjectIdFormat.RRepeat n (RNotIn excluded)) s
  ↔ String.length s = n ∧ all_chars (λ c, negb (excluded c)) s = true.
Proof.
  revert s. induction n as [|n IH]; intros s; cbn.
  - split.
    + inversion 1. now split.
    + intros [Hlen _]. destruct s; [constructor|discriminate].
  - split.
    + intros (s1 & s2 & -> & (c & -> & Hc)%Matches_notin_inv
              & [Hlen Hall]%IH)%Matches_seq_inv.
      change (String c "" ++ s2) with (String c s2). cbn.
      rewrite Hall, Hlen.
      destruct (excluded c); [discriminate Hc|now split].
    + intros [Hlen Hall]. destruct s as [|c s]; [discriminate|].
      cbn in Hlen, Hall. injection Hlen as Hlen.
      apply andb_true_iff in Hall as [Hc Hs]. apply negb_true_iff in Hc.
      apply (MSeq _ _ (String c "") s); [now constructor|].
      apply IH. now split.
Qed.

(** Neither whitespace nor [@]. *)
Definition plain_char (c : ascii) : bool :=
  negb (is_whitespace c || Ascii.eqb c "@").

(** The shape [local@domain.tld]: three non-empty parts free of whitespace
    and of [@]. *)
Definition email_shaped (s : string) : Prop :=
  ∃ local domain tld,
    s = local ++ "@" ++ domain ++ "." ++ tld
    ∧ local ≠ "" ∧ domain ≠ "" ∧ tld ≠ ""
    ∧ all_chars plain_char local = true
    ∧ all_chars plain_char domain = true
    ∧ all_chars plain_char tld = true.

Lemma emailRegex_email_shaped (s : string) :
  matches emailRegex s = true ↔ email_shaped s.
Proof.
  rewrite matches_Matches. unfold emailRegex, not_space_at, email_shaped.
  split.
  - intros (l & s1 & -> & [Hl Hla]%Matches_plus_notin
            & (at_ & s2 & -> & ->%Matches_char_inv
               & (d & s3 & -> & [Hd Hda]%Matches_plus_notin
                  & (dot & t & -> & ->%Matches_char_inv
                     & [Ht Hta]%Matches_plus_notin)%Matches_seq_inv
                 )%Matches_seq_inv)%Matches_seq_inv)%Matches_seq_inv.
    exists l, d, t. repeat split; assumption.
  - intros (l & d & t & -> & Hl & Hd & Ht & Hla & Hda & Hta).
    apply MSeq; [now apply Matches_plus_notin|].
    apply (MSeq _ _ "@"); [constructor|].
    apply MSeq; [now apply Matches_plus_notin|].
    apply (MSeq _ _ "."); [constructor|].
    now apply Matches_plus_notin.
Qed.

(** A field of type ['email'] holding a string: the type check adds its
    message exactly when the string is not of the shape [local@domain.tld]
    with three non-empty parts free of whitespace and of [@]. *)
Theorem email_type_check_accepts (date : string → bool) (field s : string)
    (errors : list string) :
  (check_type date field TEmail (JString s) errors = errors ↔ email_shaped s)
  ∧ (¬ email_shaped s →
     check_type date field TEmail (JString s) errors
     = push errors (field ++ " must be a valid email address")).
Proof.
  rewrite <- emailRegex_email_shaped. unfold check_type, to_string.
  destruct (matches emailRegex s); cbn [negb].
  - split; [tauto|]. intros H. now destruct H.
  - split; [|reflexivity]. split; [|discriminate].
    intros H. exfalso.
    apply (f_equal (@List.length string)) in H. unfold push in H.
    rewrite length_app in H. cbn in H. lia.
Qed.

(** The identifier check lets a request through exactly when the named
    path parameter is present and is 24 hexadecimal digits; every other
    request, a missing parameter included, gets the error
    "Invalid <name> format" with status 400. *)
Theorem validateObjectId_accepts_24_hex (paramName : option string)
    (params : gmap string string) :
  let name := default "id" paramName in
  (ObjectIdFormat.validateObjectId paramName params = Next
   ↔ ∃ id, params !! name = Some id
       ∧ String.length id = 24%nat
       ∧ all_chars ObjectIdFormat.is_hex_digit id = true)
  ∧ (ObjectIdFormat.validateObjectId paramName params ≠ Next →
     ObjectIdFormat.validateObjectId paramName params
     = NextErr (new_AppError ("Invalid " ++ name ++ " format") 400)).
Proof.
  intros name. unfold ObjectIdFormat.validateObjectId. fold name.
  assert (Hiff : ∀ s, matches ObjectIdFormat.objectIdRegex s = true
                      ↔ String.length s = 24%nat
                        ∧ all_chars ObjectIdFormat.is_hex_digit s = true).
  { intros s. rewrite matches_Matches.
    unfold ObjectIdFormat.objectIdRegex, ObjectIdFormat.hex_digit.
    rewrite Matches_repeat_notin.
    assert (Heq : all_chars (λ c, negb (negb (ObjectIdFormat.is_hex_digit c))) s
                  = all_chars ObjectIdFormat.is_hex_digit s).
    { induction s as [|c s IH]; [reflexivity|]. cbn.
      now rewrite negb_involutive, IH. }
    now rewrite Heq. }
  destruct (params !! name) as [id|] eqn:E.
  - change (default "undefined" (Some id)) with id.
    destruct (matches ObjectIdFormat.objectIdRegex id) eqn:M;
      cbn [negb].
    + split; [|congruence]. split; [|reflexivity].
      intros _. exists id. split; [reflexivity|]. now apply Hiff.
    + split; [|reflexivity]. split; [discriminate|].
      intros (id' & [= <-] & H). apply Hiff in H. congruence.
  - change (matches ObjectIdFormat.objectIdRegex (default "undefined" None))
      with false.
    cbn [negb]. split; [|reflexivity]. split; [discriminate|].
    intros (id' & [=] & _).
Qed.

End RegexProps.

(** * More on the error normalizer *)

Module ErrorFlow.
Import ErrorHandler ErrorHandlerProps.

(** An [AppError] created by a middleware, as the [err] that reaches
    [errorHandler]: the class sets no [name], so it is ["Error"], and it has
    no [code], [keyValue] or [errors]. *)
Definition raised (e : AppError) (stack : option string) : JsError :=
  {| err_message := message e;
     err_stack := stack;
     err_name := "Error";
     err_code := None;
     err_statusCode := Some (statusCode e);
     err_status := Some (status e);
     err_isOperational := isOperational e;
     err_keyValue := None;
     err_errors := None |}.

(** The body of a minimal response. *)
Definition minimal_body (st msg timestamp : string)
    : list (string * BodyValue) :=
  [("status", BString st); ("message", BString msg);
   ("timestamp", BString timestamp)].

Definition production (node_env : option string) : Prop :=
  node_env ≠ Some "development".

Lemma prefix_4_of_4xx (code : Z) :
  400 <= code <= 499 → String.prefix "4" (pretty code) = true.
Proof.
  intros Hrange.
  assert (Hall : forallb (λ k, String.prefix "4" (pretty (400 + Z.of_nat k)))
                   (seq 0 100) = true) by (vm_compute; reflexivity).
  rewrite forallb_forall in Hall.
  specialize (Hall (Z.to_nat (code - 400))).
  replace (400 + Z.of_nat (Z.to_nat (code - 400))) with code in Hall by lia.
  apply Hall. apply in_seq. lia.
Qed.

Lemma prefix_4_of_5xx (code : Z) :
  500 <= code <= 599 → String.prefix "4" (pretty code) = false.
Proof.
  intros Hrange.
  assert (Hall : forallb (λ k, negb (String.prefix "4"
                                       (pretty (500 + Z.of_nat k))))
                   (seq 0 100) = true) by (vm_compute; reflexivity).
  rewrite forallb_forall in Hall.
  specialize (Hall (Z.to_nat (code - 500))).
  replace (500 + Z.of_nat (Z.to_nat (code - 500))) with code in Hall by lia.
  apply negb_true_iff, Hall. apply in_seq. lia.
Qed.

(** The constructor classifies every 4xx status code as "fail" and every
    5xx status code as "error", keeps the message and the code, and marks
    the error operational. *)
Theorem AppError_status_classification (msg : string) (code : Z) :
  (400 <= code <= 499 → status (new_AppError msg code) = "fail")
  ∧ (500 <= code <= 599 → status (new_AppError msg code) = "error")
  ∧ message (new_AppError msg code) = msg
  ∧ statusCode (new_AppError msg code) = code
  ∧ isOperational (new_AppError msg code) = true.
Proof.
  unfold new_AppError. cbn. repeat split.
  - intros H. now rewrite prefix_4_of_4xx.
  - intros H. now rewrite prefix_4_of_5xx.
Qed.

Lemma AppError_status_classification_witness :
  status (new_AppError "Project not found" 404) = "fail"
  ∧ status (new_AppError "Error checking resource access" 500) = "error".
Proof.
  split.
  - apply (proj1 (AppError_status_classification "Project not found" 404)).
    lia.
  - apply (proj1 (proj2 (AppError_status_classification
                           "Error checking resource access" 500))).
    lia.
Defined.

Lemma status_of_new_AppError_truthy msg code :
  truthy_string (status (new_AppError msg code)) = true.
Proof. unfold new_AppError. cbn. now destruct (String.prefix _ _). Qed.

(** An error raised by a middleware through [new AppError(msg, code)] with a
    non-zero code is answered with that code, its classification and its
    message, and is never written to the console: in production with the
    three-field body, in development with the raw error and the stack
    added. *)
Theorem raised_AppError_is_reported (node_env : option string) (msg : string)
    (code : Z) (stack : option string) (timestamp : string) :
  code ≠ 0 →
  let e := new_AppError msg code in
  (production node_env →
   errorHandler node_env (raised e stack) timestamp
   = Some ({| res_status := code;
              res_body := minimal_body (status e) msg timestamp |}, []))
  ∧ (node_env = Some "development" →
     errorHandler node_env (raised e stack) timestamp
     = Some ({| res_status := code;
                res_body := [("status", BString (status e));
                             ("error", BRawError (raised e stack));
                             ("message", BString msg);
                             ("stack", from_option BString BUndefined stack);
                             ("timestamp", BString timestamp)] |}, [])).
Proof.
  intros Hcode e.
  assert (Hc : number_or (err_statusCode (raised e stack)) 500 = code).
  { cbn. unfold truthy_number.
    destruct (Z.eqb_spec code 0); [contradiction|reflexivity]. }
  assert (Hs : string_or (err_status (raised e stack)) "error" = status e).
  { cbn [raised err_status]. unfold string_or. subst e.
    now rewrite status_of_new_AppError_truthy. }
  split.
  - intros Hmode. unfold errorHandler.
    rewrite bool_decide_eq_false_2 by exact Hmode.
    rewrite normalize_unmatched by (cbn; discriminate).
    rewrite Hc, Hs. reflexivity.
  - intros ->. unfold errorHandler.
    rewrite bool_decide_eq_true_2 by reflexivity.
    rewrite Hc, Hs. reflexivity.
Qed.

Lemma raised_AppError_is_reported_witness :
  errorHandler (Some "production")
    (raised (new_AppError "Route /api/nope not found" 404) None)
    "2025-06-14T10:00:00.000Z"
  = Some ({| res_status := 404;
             res_body := minimal_body "fail" "Route /api/nope not found"
                           "2025-06-14T10:00:00.000Z" |}, []).
Proof.
  apply (proj1 (raised_AppError_is_reported (Some "production")
                  "Route /api/nope not found" 404 None
                  "2025-06-14T10:00:00.000Z" ltac:(discriminate))).
  discriminate.
Defined.

Lemma errorHandler_production node_env err timestamp :
  production node_env →
  errorHandler node_env err timestamp
  = (λ error, sendErrorProd error timestamp)
    <$> normalize err (number_or (err_statusCode err) 500)
          (string_or (err_status err) "error").
Proof.
  intros Hmode. unfold errorHandler.
  rewrite bool_decide_eq_false_2 by exact Hmode.
  now destruct (normalize _ _ _).
Qed.

(** A duplicate-key error (code 11000) whose name is none of the other
    patterns is answered in production with status 400, classification
    "fail" and a message naming the first conflicting field and its value;
    nothing is logged. *)
Theorem duplicate_key_is_reported (node_env : option string) (err : JsError)
    (field value : string) (rest : list (string * string))
    (timestamp : string) :
  production node_env →
  err_code err = Some 11000 →
  err_keyValue err = Some ((field, value) :: rest) →
  err_name err ≠ "ValidationError" →
  err_name err ≠ "JsonWebTokenError" →
  err_name err ≠ "TokenExpiredError" →
  errorHandler node_env err timestamp
  = Some ({| res_status := 400;
             res_body := minimal_body "fail"
               (field ++ " '" ++ value
                ++ "' already exists. Please choose another value.")
               timestamp |}, []).
Proof.
  intros Hmode Hcode Hkv Hv Hj He.
  rewrite errorHandler_production by assumption. unfold normalize.
  rewrite bool_decide_eq_true_2 by assumption.
  unfold handleDuplicateKeyError. rewrite Hkv. cbn [mbind option_bind].
  apply String.eqb_neq in Hv, Hj, He. rewrite Hv, Hj, He. reflexivity.
Qed.

Definition duplicate_email : JsError :=
  {| err_message := "E11000 duplicate key error collection: devtasks.users";
     err_stack := None;
     err_name := "MongoServerError";
     err_code := Some 11000;
     err_statusCode := None;
     err_status := None;
     err_isOperational := false;
     err_keyValue := Some [("email", "a@b.com")];
     err_errors := None |}.

Lemma duplicate_key_is_reported_witness :
  errorHandler None duplicate_email "2025-06-14T10:00:00.000Z"
  = Some ({| res_status := 400;
             res_body := minimal_body "fail"
               "email 'a@b.com' already exists. Please choose another value."
               "2025-06-14T10:00:00.000Z" |}, []).
Proof.
  apply (duplicate_key_is_reported None duplicate_email "email" "a@b.com" []);
    [discriminate|reflexivity|reflexivity|discriminate|discriminate
    |discriminate].
Defined.

(** In production the normalizer tells the two credential errors apart by
    their name: whatever else the error holds, one named JsonWebTokenError
    is answered 401 "Invalid token. Please log in again." and one named
    TokenExpiredError 401 "Your token has expired. Please log in again.",
    both classified "fail" and not logged. *)
Theorem credential_errors_by_name (node_env : option string) (err : JsError)
    (timestamp : string) :
  production node_env →
  err_code err ≠ Some 11000 →
  (err_name err = "JsonWebTokenError" →
   errorHandler node_env err timestamp
   = Some ({| res_status := 401;
              res_body := minimal_body "fail"
                "Invalid token. Please log in again." timestamp |}, []))
  ∧ (err_name err = "TokenExpiredError" →
     errorHandler node_env err timestamp
     = Some ({| res_status := 401;
                res_body := minimal_body "fail"
                  "Your token has expired. Please log in again."
                  timestamp |}, [])).
Proof.
  intros Hmode Hcode.
  rewrite errorHandler_production by assumption. unfold normalize.
  rewrite bool_decide_eq_false_2 by assumption.
  split; intros Hname; rewrite Hname; reflexivity.
Qed.

Definition expired_error : JsError :=
  {| err_message := "jwt expired";
     err_stack := None;
     err_name := "TokenExpiredError";
     err_code := None;
     err_statusCode := None;
     err_status := None;
     err_isOperational := false;
     err_keyValue := None;
     err_errors := None |}.

Lemma credential_errors_by_name_witness :
  errorHandler (Some "production") expired_error "2025-06-14T10:00:00.000Z"
  = Some ({| res_status := 401;
             res_body := minimal_body "fail"
               "Your token has expired. Please log in again."
               "2025-06-14T10:00:00.000Z" |}, []).
Proof.
  apply (proj2 (credential_errors_by_name (Some "production") expired_error
                  "2025-06-14T10:00:00.000Z" ltac:(discriminate)
                  ltac:(discriminate))).
  reflexivity.
Defined.

(** A schema-validation error with its per-field messages is answered in
    production with status 400 and "Invalid input data. " followed by the
    messages joined with ". "; when the error also carries the
    duplicate-key code, the validation message is the one sent. *)
Theorem validation_error_is_reported (node_env : option string)
    (err : JsError) (messages : list string) (timestamp : string) :
  production node_env →
  err_name err = "ValidationError" →
  err_errors err = Some messages →
  (err_code err = Some 11000 → err_keyValue err ≠ None) →
  errorHandler node_env err timestamp
  = Some ({| res_status := 400;
             res_body := minimal_body "fail"
               ("Invalid input data. " ++ join ". " messages) timestamp |},
          []).
Proof.
  intros Hmode Hname Herrors Hkv.
  rewrite errorHandler_production by assumption. unfold normalize.
  assert (Hdup : is_Some (if bool_decide (err_code err = Some 11000)
                          then handleDuplicateKeyError err
                          else Some (spread err
                                       (number_or (err_statusCode err) 500)
                                       (string_or (err_status err) "error")))).
  { case_bool_decide as Hc; [|eauto]. specialize (Hkv Hc).
    unfold handleDuplicateKeyError.
    destruct (err_keyValue err) as [[|[k v] kv]|]; [eauto|eauto|congruence]. }
  destruct Hdup as [error ->]. cbn [mbind option_bind].
  rewrite Hname. cbn [String.eqb Ascii.eqb Bool.eqb].
  unfold handleValidationError. rewrite Herrors. reflexivity.
Qed.

Definition mongoose_validation : JsError :=
  {| err_message := "User validation failed";
     err_stack := None;
     err_name := "ValidationError";
     err_code := None;
     err_statusCode := None;
     err_status := None;
     err_isOperational := false;
     err_keyValue := None;
     err_errors := Some ["Email is required"; "Password is too short"] |}.

Lemma validation_error_is_reported_witness :
  errorHandler None mongoose_validation "2025-06-14T10:00:00.000Z"
  = Some ({| res_status := 400;
             res_body := minimal_body "fail"
               "Invalid input data. Email is required. Password is too short"
               "2025-06-14T10:00:00.000Z" |}, []).
Proof.
  apply (validation_error_is_reported None mongoose_validation
           ["Email is required"; "Password is too short"]);
    [discriminate|reflexivity|reflexivity|discriminate].
Defined.

(** The handler always sends a response, except in production for a
    duplicate-key error without [keyValue] or a ValidationError without
    [errors]: there the normalizer itself throws and nothing is sent. *)
Theorem errorHandler_responds_unless (node_env : option string)
    (err : JsError) (timestamp : string) :
  errorHandler node_env err timestamp = None
  ↔ production node_env
    ∧ ((err_code err = Some 11000 ∧ err_keyValue err = None)
       ∨ (err_name err = "ValidationError" ∧ err_errors err = None)).
Proof.
  unfold production.
  destruct (decide (node_env = Some "development")) as [->|Hmode].
  - split; [discriminate|]. intros [H _]. now destruct H.
  - rewrite errorHandler_production by assumption.
    rewrite fmap_None. unfold normalize.
    unfold handleDuplicateKeyError, handleValidationError.
    destruct (String.eqb_spec (err_name err) "ValidationError") as [Hn|Hn];
      destruct (err_errors err) as [msgs|] eqn:He;
      destruct (err_keyValue err) as [[|[k v] kv]|] eqn:Hkv;
      case_bool_decide as Hc; cbn [mbind option_bind];
      intuition congruence.
Qed.

(** Every response sent in production has exactly the fields status,
    message and timestamp, each a string: no stack and no raw error object
    is ever sent, for operational and non-operational errors alike; and at
    most one console line is written. *)
Theorem production_response_is_minimal (node_env : option string)
    (err : JsError) (timestamp : string) (res : Response)
    (log : list LogEntry) :
  production node_env →
  errorHandler node_env err timestamp = Some (res, log) →
  (∃ st msg, res_body res = minimal_body st msg timestamp)
  ∧ (List.length log <= 1)%nat.
Proof.
  intros Hmode. rewrite errorHandler_production by assumption.
  destruct (normalize _ _ _) as [error|]; [|discriminate]. cbn.
  unfold sendErrorProd. destruct (isOperational error); intros [= <- <-];
    cbn; split; eauto.
Qed.

Lemma production_response_is_minimal_witness :
  ∃ st msg,
    res_body (sendErrorProd ErrorHandlerProps.secret_failure
                "2025-06-14T10:00:00.000Z").1
    = minimal_body st msg "2025-06-14T10:00:00.000Z".
Proof.
  refine (proj1 (production_response_is_minimal (Some "production")
            {| err_message := message ErrorHandlerProps.secret_failure;
               err_stack := Some "at connect (db.ts:57)";
               err_name := "MongoNetworkError";
               err_code := None;
               err_statusCode := Some 503;
               err_status := Some "error";
               err_isOperational := false;
               err_keyValue := None;
               err_errors := None |}
            "2025-06-14T10:00:00.000Z" _ _ ltac:(discriminate) eq_refl)).
Defined.

End ErrorFlow.

(** * More on the rate limiter *)

Module RateLimitWindow.
Import ErrorHandler RateLimit RateLimitProps.

(** The identifier a request is counted under. *)
Definition client_of (r : Request) : string := string_or (req_ip r) "unknown".

(** How many requests of one client were let through, given the requests
    and the limiter's results for them. *)
Fixpoint admitted (client : string) (reqs : list Request)
    (results : list Result) : nat :=
  match reqs, results with
  | r :: reqs', res :: results' =>
      ((if bool_decide (client_of r = client) && allowed res then 1 else 0)
       + admitted client reqs' results')%nat
  | _, _ => 0%nat
  end.

Lemma prune_lookup_ext now (clients1 clients2 : gmap string Bucket) k :
  clients1 !! k = clients2 !! k →
  prune now clients1 !! k = prune now clients2 !! k.
Proof.
  intros H. apply option_eq. intros b. now rewrite !prune_lookup_Some, H.
Qed.

Lemma current_ext windowMs (clients1 clients2 : gmap string Bucket) ip now :
  clients1 !! string_or ip "unknown" = clients2 !! string_or ip "unknown" →
  current windowMs clients1 ip now = current windowMs clients2 ip now.
Proof.
  intros H. unfold current. now rewrite (prune_lookup_ext now _ _ _ H).
Qed.

(** Clients do not interfere: the answer to a request (outcome, headers and
    the client's bucket afterwards) depends on the map only through that
    client's own bucket, and the invocation leaves every other client's
    bucket as it was unless that bucket has expired, in which case it is
    removed. *)
Theorem rateLimit_client_isolation (windowMs maxRequests : Z)
    (clients1 clients2 : gmap string Bucket) (ip : option string) (now : Z) :
  let client := string_or ip "unknown" in
  let res1 := rateLimit windowMs maxRequests clients1 ip now in
  let res2 := rateLimit windowMs maxRequests clients2 ip now in
  (clients1 !! client = clients2 !! client →
   outcome res1 = outcome res2
   ∧ headers res1 = headers res2
   ∧ clients_after res1 !! client = clients_after res2 !! client)
  ∧ (∀ other b, other ≠ client →
       (clients_after res1 !! other = Some b
        ↔ clients1 !! other = Some b ∧ now <= resetTime b)).
Proof.
  intros client res1 res2. subst res1 res2. split.
  - intros Hsame. pose proof (current_ext windowMs _ _ ip now Hsame) as Hcur.
    destruct (Z_ge_dec (count (current windowMs clients1 ip now)) maxRequests)
      as [Hge|Hlt].
    + destruct (rateLimit_rejects _ _ _ _ _ Hge) as (O1 & H1 & S1 & _).
      rewrite Hcur in Hge.
      destruct (rateLimit_rejects _ _ _ _ _ Hge) as (O2 & H2 & S2 & _).
      fold client in S1, S2. rewrite O1, O2, H1, H2, S1, S2, Hcur. auto.
    + destruct (rateLimit_allows _ _ _ _ _ Hlt) as (O1 & H1 & S1 & _).
      rewrite Hcur in Hlt.
      destruct (rateLimit_allows _ _ _ _ _ Hlt) as (O2 & H2 & S2 & _).
      fold client in S1, S2. rewrite O1, O2, H1, H2, S1, S2, Hcur. auto.
  - intros other b Hne.
    assert (Hother : clients_after (rateLimit windowMs maxRequests clients1
                                      ip now) !! other
                     = prune now clients1 !! other).
    { destruct (Z_ge_dec (count (current windowMs clients1 ip now))
                  maxRequests) as [Hge|Hlt].
      - now apply (rateLimit_rejects _ _ _ _ _ Hge).
      - now apply (rateLimit_allows _ _ _ _ _ Hlt). }
    rewrite Hother, prune_lookup_Some. split; intros [H1 H2]; split;
      try assumption; lia.
Qed.

Lemma rateLimit_client_isolation_witness :
  outcome (rateLimit 1000 3 {[ "10.0.0.7" := mkBucket 3 500 ]}
             (Some "10.0.0.8") 100) = Next
  ∧ outcome (rateLimit 1000 3 ∅ (Some "10.0.0.8") 100) = Next.
Proof.
  assert (H := proj1 (rateLimit_client_isolation 1000 3
                        {[ "10.0.0.7" := mkBucket 3 500 ]} ∅
                        (Some "10.0.0.8") 100) eq_refl).
  destruct H as (H & _ & _). split; [|reflexivity].
  rewrite H. reflexivity.
Defined.

(** Within a bucket's window the limit holds whatever the traffic: from a
    map in which a client has a bucket with a count of at most the maximum,
    over any requests of any clients made no later than the bucket's reset
    time, the client is let through at most (maximum - count) times, and
    its bucket ends with the count raised by exactly that number and the
    same reset time. *)
Theorem rateLimit_window_bound (windowMs maxRequests : Z) (client : string)
    (reqs : list Request) :
  ∀ (clients : gmap string Bucket) (b : Bucket),
    clients !! client = Some b →
    count b <= maxRequests →
    Forall (λ r, req_now r <= resetTime b) reqs →
    let trace := run windowMs maxRequests clients reqs in
    Z.of_nat (admitted client reqs trace.2) <= maxRequests - count b
    ∧ trace.1 !! client
      = Some (mkBucket (count b + Z.of_nat (admitted client reqs trace.2))
                (resetTime b)).
Proof.
  induction reqs as [|r reqs IH]; intros clients b Hb Hcount Htimes trace;
    subst trace.
  - cbn. rewrite Z.add_0_r. split; [lia|]. now destruct b.
  - rewrite run_cons. cbn [fst snd admitted].
    apply Forall_cons in Htimes as [Hnow Htimes].
    set (res := rateLimit windowMs maxRequests clients (req_ip r) (req_now r)).
    assert (Hstep : ∃ b', clients_after res !! client = Some b'
              ∧ resetTime b' = resetTime b
              ∧ count b' <= maxRequests
              ∧ count b'
                = count b
                  + (if bool_decide (client_of r = client) && allowed res
                     then 1 else 0)).
    { unfold client_of, allowed.
      destruct (Z_ge_dec (count (current windowMs clients (req_ip r)
                                   (req_now r))) maxRequests) as [Hge|Hlt].
      - destruct (rateLimit_rejects _ _ _ _ _ Hge) as (O & _ & Sme & Sother).
        fold res in O, Sme, Sother. rewrite O, andb_false_r.
        exists b. rewrite Z.add_0_r. repeat split; try assumption.
        destruct (decide (client = string_or (req_ip r) "unknown"))
          as [->|Hne].
        + rewrite Sme. f_equal. now apply current_live.
        + rewrite Sother by assumption. apply prune_lookup_Some.
          split; [assumption|lia].
      - destruct (rateLimit_allows _ _ _ _ _ Hlt) as (O & _ & Sme & Sother).
        fold res in O, Sme, Sother. rewrite O, andb_true_r.
        case_bool_decide as Hc.
        + subst client.
          rewrite (current_live windowMs clients (req_ip r) (req_now r) b)
            in Hlt, Sme by assumption.
          exists (bump b). cbn. repeat split; [assumption|lia].
        + exists b. rewrite Z.add_0_r. repeat split; try assumption.
          rewrite Sother by congruence. apply prune_lookup_Some.
          split; [assumption|lia]. }
    destruct Hstep as (b' & Hb' & Hreset & Hcount' & Hinc).
    rewrite <- Hreset in Htimes.
    destruct (IH (clients_after res) b' Hb' Hcount' Htimes) as [Hle Hfinal].
    rewrite Hfinal, Hreset. split.
    + destruct (bool_decide (client_of r = client) && allowed res);
        rewrite Hinc in Hle; lia.
    + f_equal. f_equal.
      destruct (bool_decide (client_of r = client) && allowed res);
        rewrite Hinc; lia.
Qed.

Lemma rateLimit_window_bound_witness :
  let reqs := [mkRequest (Some "10.0.0.7") 10; mkRequest (Some "10.0.0.8") 20;
               mkRequest (Some "10.0.0.7") 30; mkRequest (Some "10.0.0.7") 40;
               mkRequest (Some "10.0.0.7") 50] in
  let trace := run 1000 3 {[ "10.0.0.7" := mkBucket 1 1000 ]} reqs in
  admitted "10.0.0.7" reqs trace.2 = 2%nat
  ∧ Z.of_nat (admitted "10.0.0.7" reqs trace.2) <= 3 - 1.
Proof.
  split; [reflexivity|].
  apply (rateLimit_window_bound 1000 3 "10.0.0.7" _
           {[ "10.0.0.7" := mkBucket 1 1000 ]} (mkBucket 1 1000));
    [reflexivity|cbn; lia|repeat constructor; cbn; lia].
Defined.

(** A client is never locked out past its window: with a positive maximum,
    a request of a client that has no bucket, or whose bucket's reset time
    has passed, is let through, counted as the first request of a new window
    that ends [windowMs] after it, and announced with maximum - 1 requests
    remaining.  With a maximum of zero or less a request is rejected
    (buckets never hold a negative count). *)
Theorem rateLimit_new_window (windowMs maxRequests : Z)
    (clients : gmap string Bucket) (ip : option string) (now : Z) :
  let client := string_or ip "unknown" in
  let res := rateLimit windowMs maxRequests clients ip now in
  (0 < maxRequests →
   (clients !! client = None
    ∨ ∃ b, clients !! client = Some b ∧ resetTime b < now) →
   outcome res = Next
   ∧ clients_after res !! client = Some (mkBucket 1 (now + windowMs))
   ∧ header "X-RateLimit-Remaining" res = Some (HNumber (maxRequests - 1))
   ∧ header "X-RateLimit-Reset" res = Some (HDate (now + windowMs)))
  ∧ (maxRequests <= 0 →
     (∀ b, clients !! client = Some b → 0 <= count b) →
     allowed res = false).
Proof.
  intros client res. subst res. split.
  - intros Hmax Hgone.
    assert (Hcur : current windowMs clients ip now
                   = mkBucket 0 (now + windowMs)).
    { apply current_fresh, prune_lookup_None.
      destruct Hgone as [H|(b & H1 & H2)]; [now left|].
      right. exists b. split; [assumption|lia]. }
    destruct (rateLimit_allows windowMs maxRequests clients ip now)
      as (O & Hh & Sme & _); [rewrite Hcur; cbn; lia|].
    rewrite Hcur in Hh, Sme. fold client in Sme.
    split; [exact O|]. split; [exact Sme|].
    unfold header. rewrite Hh. cbn. split; [|reflexivity].
    do 2 f_equal; lia.
  - intros Hmax Hcounts.
    assert (Hpos : 0 <= count (current windowMs clients ip now)).
    { unfold current. fold client.
      destruct (prune now clients !! client) as [d|] eqn:E; cbn; [|lia].
      apply prune_lookup_Some in E as [E _]. now apply Hcounts. }
    destruct (rateLimit_rejects windowMs maxRequests clients ip now)
      as (O & _); [lia|].
    unfold allowed. now rewrite O.
Qed.

Lemma rateLimit_new_window_witness :
  outcome (rateLimit 1000 3 {[ "10.0.0.7" := mkBucket 3 1000 ]}
             (Some "10.0.0.7") 1001) = Next
  ∧ allowed (rateLimit 1000 0 ∅ (Some "10.0.0.7") 5) = false.
Proof.
  split.
  - apply (proj1 (rateLimit_new_window 1000 3
                    {[ "10.0.0.7" := mkBucket 3 1000 ]}
                    (Some "10.0.0.7") 1001)); [lia|].
    right. exists (mkBucket 3 1000). split; [reflexivity|cbn; lia].
  - apply (proj2 (rateLimit_new_window 1000 0 ∅ (Some "10.0.0.7") 5));
      [lia|]. intros b Hb. now rewrite lookup_empty in Hb.
Defined.

Lemma ceil_div_1000 (d : Z) :
  1000 * (ceil_div d 1000 - 1) < d <= 1000 * ceil_div d 1000.
Proof.
  unfold ceil_div.
  pose proof (Z.div_mod (- d) 1000 ltac:(lia)) as Hdm.
  pose proof (Z.mod_pos_bound (- d) 1000 ltac:(lia)) as Hm.
  lia.
Qed.

(** What a rejected client is told: for a window that is not negative, a
    rejection is always the 429 error whose message gives the time left
    until the client's bucket resets, rounded up to whole seconds; that
    number is never negative, and it is 0 exactly when the request arrives
    at the reset time itself, where the bucket still counts. *)
Theorem rateLimit_retry_advice (windowMs maxRequests : Z)
    (clients : gmap string Bucket) (ip : option string) (now : Z) :
  0 <= windowMs →
  let res := rateLimit windowMs maxRequests clients ip now in
  allowed res = false →
  ∃ data seconds,
    clients_after res !! string_or ip "unknown" = Some data
    ∧ outcome res
      = NextErr (new_AppError ("Too many requests. Try again in "
                               ++ pretty seconds ++ " seconds.") 429)
    ∧ 0 <= seconds
    ∧ 1000 * (seconds - 1) < resetTime data - now <= 1000 * seconds
    ∧ (seconds = 0 ↔ now = resetTime data).
Proof.
  intros Hw res Hrej. subst res.
  destruct (Z_ge_dec (count (current windowMs clients ip now)) maxRequests)
    as [Hge|Hlt].
  - destruct (rateLimit_rejects _ _ _ _ _ Hge) as (O & _ & Sme & _).
    assert (Hlive : now <= resetTime (current windowMs clients ip now)).
    { unfold current.
      destruct (prune now clients !! string_or ip "unknown") as [d|] eqn:E.
      - apply prune_lookup_Some in E. cbn. lia.
      - cbn. lia. }
    exists (current windowMs clients ip now),
           (ceil_div (resetTime (current windowMs clients ip now) - now) 1000).
    pose proof (ceil_div_1000
                  (resetTime (current windowMs clients ip now) - now)) as Hc.
    split; [exact Sme|]. split; [exact O|]. split; [lia|]. split; [lia|].
    split; lia.
  - destruct (rateLimit_allows _ _ _ _ _ Hlt) as (O & _).
    unfold allowed in Hrej. rewrite O in Hrej. discriminate.
Qed.

Lemma rateLimit_retry_advice_witness :
  ∃ data seconds,
    clients_after (rateLimit 1000 3 {[ "10.0.0.7" := mkBucket 3 1000 ]}
                     (Some "10.0.0.7") 1000) !! "10.0.0.7" = Some data
    ∧ outcome (rateLimit 1000 3 {[ "10.0.0.7" := mkBucket 3 1000 ]}
                 (Some "10.0.0.7") 1000)
      = NextErr (new_AppError ("Too many requests. Try again in "
                               ++ pretty seconds ++ " seconds.") 429)
    ∧ seconds = 0.
Proof.
  assert (Hrej : allowed (rateLimit 1000 3
                            {[ "10.0.0.7" := mkBucket 3 1000 ]}
                            (Some "10.0.0.7") 1000) = false)
    by (vm_compute; reflexivity).
  destruct (rateLimit_retry_advice 1000 3 {[ "10.0.0.7" := mkBucket 3 1000 ]}
              (Some "10.0.0.7") 1000 ltac:(lia) Hrej)
    as (data & seconds & H1 & H2 & _ & _ & H3).
  exists data, seconds. split; [exact H1|]. split; [exact H2|].
  apply H3. change (string_or (Some "10.0.0.7") "unknown") with "10.0.0.7" in H1.
  vm_compute in H1. injection H1 as <-. reflexivity.
Defined.

End RateLimitWindow.

(** * More on the authentication, role and resource-access gates *)

Module AuthFlow.
Import ErrorHandler Auth AuthProps.

Definition not_space (c : ascii) : bool := negb (Ascii.eqb c " ").

Lemma split_without_separator (s : string) :
  RegexProps.all_chars not_space s = true → split " " s = [s].
Proof.
  induction s as [|c s IH]; [reflexivity|]. cbn [RegexProps.all_chars split].
  intros [Hc Hs]%andb_true_iff. unfold not_space in Hc.
  apply negb_true_iff in Hc. rewrite Hc, IH by assumption. reflexivity.
Qed.

Lemma extract_bearer (token : string) :
  RegexProps.all_chars not_space token = true →
  extract_token (Some ("Bearer " ++ token)) = Some token.
Proof.
  intros Hplain. unfold extract_token.
  change ("Bearer " ++ token)
    with (String "B" (String "e" (String "a" (String "r" (String "e"
            (String "r" (String " " token))))))).
  cbn [truthy_string String.eqb negb andb String.prefix Ascii.eqb Bool.eqb].
  cbn [split Ascii.eqb Bool.eqb].
  now rewrite split_without_separator.
Qed.

(** The way in: a request whose authorization header is "Bearer " followed
    by a non-empty token without spaces passes the gate, with the stored
    user attached, when the secret is configured, the token verifies, the
    database is connected and the user named by the token exists and is
    active. *)
Theorem protect_accepts_bearer_token (env : ProtectEnv)
    (token secret : string) (decoded : JWTPayload) (db : Db) (oid : ObjectId)
    (user : User) :
  authorization env = Some ("Bearer " ++ token) →
  token ≠ "" →
  RegexProps.all_chars not_space token = true →
  JWT_SECRET env = Some secret →
  secret ≠ "" →
  jwt_verify env token secret = inr decoded →
  getDB env = Some db →
  new_ObjectId db (userId decoded) = Some oid →
  users_findOne db oid = Found user →
  isActive user = true →
  protect env = (Next, Some user).
Proof.
  intros Hauth Hne Hplain Hsecret Hse Hverify Hdb Hoid Huser Hactive.
  unfold protect, protect_try. rewrite Hauth, extract_bearer by assumption.
  cbn [token_missing default from_option id]. unfold truthy_string.
  apply String.eqb_neq in Hne, Hse. rewrite Hne. cbn [negb].
  rewrite Hsecret, Hse. cbn [negb].
  rewrite Hverify, Hdb, Hoid, Huser, Hactive. reflexivity.
Qed.

Definition carol_db : Db :=
  {| new_ObjectId := Some;
     users_findOne := λ oid,
       if String.eqb oid (_id carol) then Found carol else Missing;
     projects_findOne := λ _, Missing;
     tasks_findOne := λ _, Missing |}.

Definition carol_request : ProtectEnv :=
  {| authorization := Some "Bearer eyJhbGciOi.eyJ1c2VySWQi.c2lnbmF0dXJl";
     JWT_SECRET := Some "your-super-secret-jwt-key";
     jwt_verify := λ token _,
       if String.eqb token "eyJhbGciOi.eyJ1c2VySWQi.c2lnbmF0dXJl"
       then inr (mkJWTPayload (_id carol) (email carol) (role carol)
                   1718000000 1720592000)
       else inl JsonWebTokenError;
     getDB := Some carol_db |}.

Lemma protect_accepts_bearer_token_witness :
  protect carol_request = (Next, Some carol).
Proof.
  eapply (protect_accepts_bearer_token carol_request
            "eyJhbGciOi.eyJ1c2VySWQi.c2lnbmF0dXJl" "your-super-secret-jwt-key"
            _ carol_db (_id carol) carol);
    [reflexivity|discriminate|reflexivity|reflexivity|discriminate
    |reflexivity|reflexivity|reflexivity|reflexivity|reflexivity].
Defined.

Definition protect_guarantee (env : ProtectEnv) : Prop :=
  match protect env with
  | (Next, Some user) => isActive user = true
  | (NextErr err, None) =>
      isOperational err = true
      ∧ (statusCode err = 401
         ∨ (statusCode err = 500
            ∧ message err = "JWT secret not configured"
            ∧ string_or (JWT_SECRET env) "" = ""))
  | _ => False
  end.

Lemma protect_cases (env : ProtectEnv) : protect_guarantee env.
Proof.
  unfold protect_guarantee, protect, protect_try.
  destruct (token_missing (extract_token (authorization env)));
    [cbn; auto|].
  destruct (JWT_SECRET env) as [secret|]; [|cbn; auto 6].
  cbn [string_or]. destruct (truthy_string secret); cbn [negb];
    [|cbn; auto 6].
  destruct (jwt_verify env _ secret) as [c|decoded]; [cbn; auto|].
  destruct (getDB env) as [db|]; [|cbn; auto].
  destruct (new_ObjectId db (userId decoded)) as [oid|]; [|cbn; auto].
  destruct (users_findOne db oid) as [user| |]; try (cbn; auto; fail).
  destruct (isActive user) eqn:Hactive; cbn; auto.
Qed.

(** What the gate guarantees to the middleware behind it: it calls [next()]
    exactly when it attaches a user, the attached user is active, and every
    failure is an operational error of status 401, or of status 500 when
    the secret is not configured. *)
Theorem protect_outcome_invariant (env : ProtectEnv) :
  match protect env with
  | (Next, Some user) => isActive user = true
  | (NextErr err, None) =>
      isOperational err = true
      ∧ (statusCode err = 401
         ∨ (statusCode err = 500
            ∧ message err = "JWT secret not configured"
            ∧ string_or (JWT_SECRET env) "" = ""))
  | _ => False
  end.
Proof. exact (protect_cases env). Qed.

Definition not_logged_in : AppError :=
  new_AppError "You are not logged in! Please log in to get access." 401.

(** A header that does not start with "Bearer" (the test is case-sensitive),
    or that has nothing or an empty string after its first space, counts as
    no token: the gate answers 401 "not logged in" without looking at the
    secret, the verifier or the database. *)
Theorem protect_needs_bearer_token (env : ProtectEnv) (header : string) :
  authorization env = Some header →
  String.prefix "Bearer" header = false
  ∨ nth_error (split " " header) 1 = None
  ∨ nth_error (split " " header) 1 = Some "" →
  protect env = (NextErr not_logged_in, None).
Proof.
  intros Hauth Hcase. unfold protect, protect_try, extract_token.
  rewrite Hauth.
  destruct Hcase as [Hp|[Hn|Hn]].
  - rewrite Hp, andb_false_r. reflexivity.
  - destruct (truthy_string header && String.prefix "Bearer" header);
      [rewrite Hn|]; reflexivity.
  - destruct (truthy_string header && String.prefix "Bearer" header);
      [rewrite Hn|]; reflexivity.
Qed.

Lemma protect_needs_bearer_token_witness :
  protect (mkProtectEnv (Some "bearer eyJhbGciOi.eyJ1c2VySWQi.c2lnbmF0dXJl")
             (Some "k") (λ _ _, inl JsonWebTokenError) None)
  = (NextErr not_logged_in, None)
  ∧ protect (mkProtectEnv (Some "Bearer") (Some "k")
               (λ _ _, inl JsonWebTokenError) None)
    = (NextErr not_logged_in, None).
Proof.
  split.
  - eapply protect_needs_bearer_token; [reflexivity|]. left. reflexivity.
  - eapply protect_needs_bearer_token; [reflexivity|]. right. left.
    reflexivity.
Defined.

(** A token that verifies is still refused with status 401, never 500, when
    the store cannot vouch for its user: "Authentication failed" when the
    database is not connected, the token's user id is not a valid ObjectId
    or the lookup is rejected, and "The user belonging to this token no
    longer exists." when no such user is stored. *)
Theorem protect_store_failures (env : ProtectEnv) (token secret : string)
    (decoded : JWTPayload) :
  extract_token (authorization env) = Some token →
  token ≠ "" →
  JWT_SECRET env = Some secret →
  secret ≠ "" →
  jwt_verify env token secret = inr decoded →
  match getDB env with
  | None => protect env = (NextErr (new_AppError "Authentication failed" 401), None)
  | Some db =>
      match new_ObjectId db (userId decoded) with
      | None =>
          protect env
          = (NextErr (new_AppError "Authentication failed" 401), None)
      | Some oid =>
          (users_findOne db oid = Rejected →
           protect env
           = (NextErr (new_AppError "Authentication failed" 401), None))
          ∧ (users_findOne db oid = Missing →
             protect env
             = (NextErr (new_AppError
                           "The user belonging to this token no longer exists."
                           401), None))
      end
  end.
Proof.
  intros Htoken Hne Hsecret Hse Hverify. unfold protect, protect_try.
  rewrite Htoken. cbn [token_missing default from_option id].
  unfold truthy_string. apply String.eqb_neq in Hne, Hse.
  rewrite Hne. cbn [negb]. rewrite Hsecret, Hse. cbn [negb].
  rewrite Hverify.
  destruct (getDB env) as [db|]; [|reflexivity].
  destruct (new_ObjectId db (userId decoded)) as [oid|]; [|reflexivity].
  split; intros ->; reflexivity.
Qed.

Lemma protect_store_failures_witness :
  protect (mkProtectEnv (authorization carol_request)
             (JWT_SECRET carol_request) (jwt_verify carol_request) None)
  = (NextErr (new_AppError "Authentication failed" 401), None).
Proof.
  exact (protect_store_failures
           (mkProtectEnv (authorization carol_request)
              (JWT_SECRET carol_request) (jwt_verify carol_request) None)
           "eyJhbGciOi.eyJ1c2VySWQi.c2lnbmF0dXJl" "your-super-secret-jwt-key"
           (mkJWTPayload (_id carol) (email carol) (role carol)
              1718000000 1720592000)
           eq_refl ltac:(discriminate) eq_refl ltac:(discriminate) eq_refl).
Defined.

(** The role gate: an unauthenticated request gets 401; an authenticated one
    passes exactly when the principal's role is one of the listed roles and
    gets 403 otherwise.  The CEO has no bypass here: a CEO is refused by a
    gate that does not list the role. *)
Theorem restrictTo_listed_roles_only (roles : list string)
    (req_user : option User) :
  (restrictTo roles req_user = Next
   ↔ ∃ user, req_user = Some user ∧ role user ∈ roles)
  ∧ (req_user = None →
     restrictTo roles req_user
     = NextErr (new_AppError "User not authenticated" 401))
  ∧ (∀ user, req_user = Some user → role user ∉ roles →
       restrictTo roles req_user
       = NextErr (new_AppError
                    "You do not have permission to perform this action" 403)).
Proof.
  assert (Hin : ∀ r, existsb (String.eqb r) roles = true ↔ r ∈ roles).
  { intros r. rewrite existsb_exists. setoid_rewrite String.eqb_eq.
    setoid_rewrite <- list_elem_of_In. split.
    - intros (x & Hx & ->). exact Hx.
    - intros H. eauto. }
  unfold restrictTo. destruct req_user as [user|].
  - destruct (existsb (String.eqb (role user)) roles) eqn:E; cbn [negb].
    + apply Hin in E. split; [|split].
      * split; [eauto|reflexivity].
      * discriminate.
      * intros u [= <-] Hnot. contradiction.
    + split; [|split].
      * split; [discriminate|]. intros (u & [= <-] & Hu).
        apply Hin in Hu. congruence.
      * discriminate.
      * reflexivity.
  - split; [|split].
    + split; [discriminate|]. intros (u & [=] & _).
    + reflexivity.
    + discriminate.
Qed.

Lemma restrictTo_listed_roles_only_witness :
  restrictTo ["PM"; "APM"] (Some boss)
  = NextErr (new_AppError
               "You do not have permission to perform this action" 403)
  ∧ restrictTo ["PM"; "APM"] (Some alice) = Next.
Proof.
  split.
  - apply (proj2 (proj2 (restrictTo_listed_roles_only ["PM"; "APM"]
                           (Some boss))) boss eq_refl).
    intros H. repeat (apply elem_of_cons in H as [H|H]; [discriminate H|]).
    now apply elem_of_nil in H.
  - apply (proj1 (restrictTo_listed_roles_only ["PM"; "APM"] (Some alice))).
    exists alice. split; [reflexivity|]. apply list_elem_of_here.
Defined.

(** The gates in sequence: whenever the authentication gate lets a request
    through, the role gate and the resource gate behind it never answer
    "User not authenticated". *)
Theorem protect_then_gates_authenticated (env : ProtectEnv)
    (roles : list string) (resourceType : ResourceType)
    (resourceId : string) :
  (protect env).1 = Next →
  restrictTo roles (protect env).2
  ≠ NextErr (new_AppError "User not authenticated" 401)
  ∧ checkResourceAccess resourceType (getDB env) (protect env).2 resourceId
    ≠ NextErr (new_AppError "User not authenticated" 401).
Proof.
  intros Hnext. pose proof (protect_cases env) as Hinv.
  unfold protect_guarantee in Hinv.
  destruct (protect env) as [[|err] [user|]]; cbn in Hnext; try discriminate;
    try contradiction.
  cbn [snd]. split.
  - unfold restrictTo. destruct (negb _); discriminate.
  - unfold checkResourceAccess.
    destruct (getDB env) as [db|]; cbn; [|discriminate].
    destruct (String.eqb (role user) "CEO"); [discriminate|].
    destruct resourceType; cbn -[hasProjectAccess hasTaskAccess].
    + destruct (new_ObjectId db resourceId) as [oid|];
        cbn -[hasProjectAccess]; [|discriminate].
      destruct (projects_findOne db oid) as [project| |]; try discriminate.
      destruct (hasProjectAccess project user) as [[|]|]; discriminate.
    + destruct (new_ObjectId db resourceId) as [oid|];
        cbn -[hasTaskAccess]; [|discriminate].
      destruct (tasks_findOne db oid) as [task| |]; try discriminate.
      destruct (projects_findOne db (projectId task)); try discriminate;
        (destruct (hasTaskAccess task _ user) as [[|]|]; discriminate).
    + destruct (String.eqb resourceId (_id user)); [discriminate|].
      destruct (new_ObjectId db resourceId) as [oid|]; cbn; [|discriminate].
      destruct (users_findOne db oid); try discriminate.
      destruct (negb _); discriminate.
Qed.

Lemma protect_then_gates_authenticated_witness :
  restrictTo ["CEO"] (protect carol_request).2
  ≠ NextErr (new_AppError "User not authenticated" 401).
Proof.
  exact (proj1 (protect_then_gates_authenticated carol_request ["CEO"]
                  RTProject "64b000000000000000000001" eq_refl)).
Defined.

(** The principal's relationship to a task and its project. *)
Definition related_to_task (task : Task) (project : Project) (user : User)
    : Prop :=
  _id user = assignedTo task
  ∨ _id user = pmId project
  ∨ apmId project = Some (_id user)
  ∨ teamLeadId project = Some (_id user).

Lemma equals_false a b : b ≠ a → equals a b = false.
Proof.
  intros Hne. destruct (equals a b) eqn:E; [|reflexivity].
  apply equals_eq in E. congruence.
Qed.

Lemma hasTaskAccess_related task project user :
  carries_ids project →
  ∃ access, hasTaskAccess task (Some project) user = Some access
            ∧ (access = true ↔ related_to_task task project user).
Proof.
  intros [[apm Hapm] [lead Hlead]].
  unfold hasTaskAccess, related_to_task. cbn [from_option].
  rewrite Hapm, Hlead. cbn [field_equals or_else].
  destruct (equals (assignedTo task) (_id user)) eqn:Eas;
    [apply equals_eq in Eas; eexists; split; [reflexivity|tauto]|].
  destruct (equals (pmId project) (_id user)) eqn:Epm;
    [apply equals_eq in Epm; eexists; split; [reflexivity|tauto]|].
  destruct (equals apm (_id user)) eqn:Eapm;
    [apply equals_eq in Eapm; subst; eexists; split; [reflexivity|tauto]|].
  cbn [or_else]. eexists. split; [reflexivity|].
  assert (Has : _id user ≠ assignedTo task)
    by (intros H; apply equals_eq in H; congruence).
  assert (Hpm : _id user ≠ pmId project)
    by (intros H; apply equals_eq in H; congruence).
  assert (Ha : Some apm ≠ Some (_id user)).
  { intros [= H]. symmetry in H. apply equals_eq in H. congruence. }
  rewrite equals_eq. split.
  - intros ->. tauto.
  - intros [H|[H|[H|[= H]]]]; congruence.
Qed.

(** The task gate when the parent project exists, for a principal other
    than the CEO.  The task's assignee and the project's manager are let
    through whatever else the project document holds.  When the project
    carries its apmId and teamLeadId, access is given exactly to the
    assignee, the pmId, the apmId and the teamLeadId, and 403 to everyone
    else: being one of the project's teamMembers does not open its tasks.
    When the project has no apmId, every other principal gets 500 "Error
    checking resource access", since only the project, not its fields, is
    guarded.  A missing task gives 404 "Task not found". *)
Theorem task_gate_access (db : Db) (user : User) (resourceId : string)
    (oid : ObjectId) :
  role user ≠ "CEO" →
  new_ObjectId db resourceId = Some oid →
  let gate := checkResourceAccess RTTask (Some db) (Some user) resourceId in
  (tasks_findOne db oid = Missing →
   gate = NextErr (new_AppError "Task not found" 404))
  ∧ (∀ task project,
       tasks_findOne db oid = Found task →
       projects_findOne db (projectId task) = Found project →
       (_id user = assignedTo task ∨ _id user = pmId project → gate = Next)
       ∧ (carries_ids project →
          (gate = Next ↔ related_to_task task project user)
          ∧ (¬ related_to_task task project user →
             gate = NextErr (new_AppError
                               "You do not have access to this task" 403)))
       ∧ (_id user ≠ assignedTo task → _id user ≠ pmId project →
          apmId project = None →
          gate = NextErr (new_AppError "Error checking resource access"
                            500))).
Proof.
  intros Hrole Hoid gate. subst gate. unfold checkResourceAccess.
  cbn -[hasTaskAccess].
  rewrite (not_CEO _ Hrole), Hoid. cbn -[hasTaskAccess]. split.
  - intros ->. reflexivity.
  - intros task project -> ->. split; [|split].
    + intros Hclose. unfold hasTaskAccess. cbn [from_option].
      destruct (equals (assignedTo task) (_id user)) eqn:Eas; [reflexivity|].
      destruct Hclose as [H|H].
      * apply equals_eq in H. congruence.
      * apply equals_eq in H. rewrite H. reflexivity.
    + intros Hids.
      destruct (hasTaskAccess_related task project user Hids)
        as (access & -> & Hiff).
      rewrite <- Hiff. destruct access; cbn.
      * split; [tauto|]. intros H. now destruct H.
      * split; [split; discriminate|]. intros _. reflexivity.
    + intros Has Hpm Hapm. unfold hasTaskAccess. cbn [from_option].
      rewrite (equals_false _ _ Has), (equals_false _ _ Hpm), Hapm.
      reflexivity.
Qed.

(** A store in which the task's project still exists. *)
Definition apollo_db : Db :=
  {| new_ObjectId := Some;
     users_findOne := λ _, Missing;
     projects_findOne := λ oid,
       if String.eqb oid "64b000000000000000000001" then Found apollo
       else Missing;
     tasks_findOne := λ oid,
       if String.eqb oid "64c000000000000000000002"
       then Found (mkTask "64a000000000000000000005" "64b000000000000000000001")
       else Missing |}.

(** A member of the project's team, without another relationship. *)
Definition dave : User :=
  mkUser "64a000000000000000000004" "dave@devtasks.io" "ENGINEER" true None [].

Lemma task_gate_access_witness :
  checkResourceAccess RTProject (Some apollo_db) (Some dave)
    "64b000000000000000000001" = Next
  ∧ checkResourceAccess RTTask (Some apollo_db) (Some dave)
      "64c000000000000000000002"
    = NextErr (new_AppError "You do not have access to this task" 403)
  ∧ checkResourceAccess RTTask (Some apollo_db) (Some carol)
      "64c000000000000000000002" = Next
  ∧ checkResourceAccess RTTask (Some hermes_db) (Some dave)
      "64c000000000000000000003"
    = NextErr (new_AppError "Error checking resource access" 500).
Proof.
  split; [reflexivity|]. split; [|split].
  - eapply (proj2 (proj1 (proj2 (proj2 (task_gate_access apollo_db dave
              "64c000000000000000000002" "64c000000000000000000002"
              ltac:(discriminate) eq_refl) _ apollo eq_refl eq_refl))
              apollo_carries_ids)).
    intros [H|[H|[H|H]]]; discriminate H.
  - eapply (proj1 (proj1 (proj2 (proj2 (task_gate_access apollo_db carol
              "64c000000000000000000002" "64c000000000000000000002"
              ltac:(discriminate) eq_refl) _ apollo eq_refl eq_refl))
              apollo_carries_ids)).
    right. right. right. reflexivity.
  - eapply (proj2 (proj2 (proj2 (task_gate_access hermes_db dave
              "64c000000000000000000003" "64c000000000000000000003"
              ltac:(discriminate) eq_refl) _ hermes eq_refl eq_refl)));
      [discriminate|discriminate|reflexivity].
Defined.

(** The user gate: a principal asking for its own identifier is let through
    before anything is looked up, even when the identifier is malformed or
    the store is failing; for another identifier a missing user gives 404,
    and an existing one is accessible exactly when it reports to the
    principal or is listed among the principal's direct reports, 403
    otherwise. *)
Theorem user_gate_access (db : Db) (user : User) (resourceId : string) :
  role user ≠ "CEO" →
  let gate := checkResourceAccess RTUser (Some db) (Some user) resourceId in
  (resourceId = _id user → gate = Next)
  ∧ (resourceId ≠ _id user →
     ∀ oid, new_ObjectId db resourceId = Some oid →
       (users_findOne db oid = Missing →
        gate = NextErr (new_AppError "User not found" 404))
       ∧ (∀ target, users_findOne db oid = Found target →
            let reports := reportsTo target = Some (_id user)
                           ∨ _id target ∈ directReports user in
            (gate = Next ↔ reports)
            ∧ (¬ reports →
               gate = NextErr (new_AppError
                                 "You do not have access to this user" 403)))).
Proof.
  intros Hrole gate. subst gate. unfold checkResourceAccess. cbn.
  rewrite (not_CEO _ Hrole). cbn. split.
  - intros ->. now rewrite String.eqb_refl.
  - intros Hne oid Hoid. apply String.eqb_neq in Hne. rewrite Hne, Hoid. cbn.
    split; [intros ->; reflexivity|].
    intros target ->.
    assert (Hiff : hasUserAccess target user = true
                   ↔ reportsTo target = Some (_id user)
                     ∨ _id target ∈ directReports user).
    { unfold hasUserAccess. rewrite orb_true_iff, existsb_exists.
      setoid_rewrite equals_eq. setoid_rewrite <- list_elem_of_In.
      destruct (reportsTo target) as [r|]; cbn; rewrite ?equals_eq.
      - split.
        + intros [->|(x & Hx & ->)]; auto.
        + intros [[= ->]|H]; eauto.
      - split.
        + intros [H|(x & Hx & ->)]; [discriminate|auto].
        + intros [H|H]; [discriminate|eauto]. }
    rewrite <- Hiff. destruct (hasUserAccess target user); cbn.
    + split; [tauto|]. intros H. now destruct H.
    + split; [split; discriminate|]. intros _. reflexivity.
Qed.

(** A store whose every lookup is rejected and whose identifiers are all
    refused. *)
Definition broken_db : Db :=
  {| new_ObjectId := λ _, None;
     users_findOne := λ _, Rejected;
     projects_findOne := λ _, Rejected;
     tasks_findOne := λ _, Rejected |}.

Lemma user_gate_access_witness :
  checkResourceAccess RTUser (Some broken_db) (Some carol) (_id carol) = Next
  ∧ checkResourceAccess RTUser (Some carol_db) (Some alice) (_id carol) = Next
  ∧ checkResourceAccess RTUser (Some carol_db) (Some erin) (_id carol)
    = NextErr (new_AppError "You do not have access to this user" 403).
Proof.
  split; [|split].
  - apply (proj1 (user_gate_access broken_db carol (_id carol)
                    ltac:(discriminate))). reflexivity.
  - eapply (proj1 (proj2 (proj2 (user_gate_access carol_db alice (_id carol)
              ltac:(discriminate)) ltac:(discriminate) (_id carol) eq_refl)
              carol eq_refl)).
    left. reflexivity.
  - eapply (proj2 (proj2 (proj2 (user_gate_access carol_db erin (_id carol)
              ltac:(discriminate)) ltac:(discriminate) (_id carol) eq_refl)
              carol eq_refl)).
    intros [H|H]; [discriminate H|]. now apply elem_of_nil in H.
Defined.

(** How the resource gate fails: a request without a principal gets 401
    whatever the store's state; with a principal, a database that is not
    connected gives 500 "Error checking resource access" even to the CEO;
    for other principals an identifier the driver refuses or a rejected
    lookup gives the same 500 (except a principal's own identifier at the
    user gate); and no outcome of the gate has a status other than 401, 403,
    404 or 500. *)
Theorem resource_gate_failures (resourceType : ResourceType)
    (get_db : option Db) (req_user : option User) (resourceId : string) :
  let gate := checkResourceAccess resourceType get_db req_user resourceId in
  let error_500 := NextErr (new_AppError "Error checking resource access" 500) in
  (req_user = None →
   gate = NextErr (new_AppError "User not authenticated" 401))
  ∧ (req_user ≠ None → get_db = None → gate = error_500)
  ∧ (∀ user db, req_user = Some user → get_db = Some db →
       role user ≠ "CEO" →
       new_ObjectId db resourceId = None →
       resourceType = RTUser ∧ resourceId = _id user ∧ gate = Next
       ∨ gate = error_500)
  ∧ (∀ err, gate = NextErr err →
       statusCode err ∈ [401; 403; 404; 500] ∧ isOperational err = true).
Proof.
  intros gate error_500. subst gate error_500. unfold checkResourceAccess.
  split; [intros ->; reflexivity|].
  split; [intros Hu ->; destruct req_user; [reflexivity|congruence]|].
  split.
  - intros user db -> -> Hrole Hoid. cbn. rewrite (not_CEO _ Hrole).
    destruct resourceType; cbn; rewrite ?Hoid; cbn; auto.
    destruct (String.eqb_spec resourceId (_id user)) as [->|Hne]; auto.
  - intros err.
    assert (H401 : (401 : Z) ∈ [401; 403; 404; 500])
      by (apply list_elem_of_In; cbn; tauto).
    assert (H403 : (403 : Z) ∈ [401; 403; 404; 500])
      by (apply list_elem_of_In; cbn; tauto).
    assert (H404 : (404 : Z) ∈ [401; 403; 404; 500])
      by (apply list_elem_of_In; cbn; tauto).
    assert (H500 : (500 : Z) ∈ [401; 403; 404; 500])
      by (apply list_elem_of_In; cbn; tauto).
    destruct req_user as [user|]; [|intros [= <-]; now split].
    destruct get_db as [db|]; cbn; [|intros [= <-]; now split].
    destruct (String.eqb (role user) "CEO"); [discriminate|].
    destruct resourceType; cbn -[hasProjectAccess hasTaskAccess].
    + destruct (new_ObjectId db resourceId) as [oid|];
        cbn -[hasProjectAccess]; [|intros [= <-]; now split].
      destruct (projects_findOne db oid) as [project| |];
        cbn -[hasProjectAccess]; try (intros [= <-]; now split).
      destruct (hasProjectAccess project user) as [[|]|]; cbn;
        [discriminate|intros [= <-]; now split|intros [= <-]; now split].
    + destruct (new_ObjectId db resourceId) as [oid|];
        cbn -[hasTaskAccess]; [|intros [= <-]; now split].
      destruct (tasks_findOne db oid) as [task| |]; cbn -[hasTaskAccess];
        try (intros [= <-]; now split).
      destruct (projects_findOne db (projectId task)); cbn -[hasTaskAccess];
        try (intros [= <-]; now split);
        (destruct (hasTaskAccess task _ user) as [[|]|]; cbn;
         [discriminate|intros [= <-]; now split|intros [= <-]; now split]).
    + destruct (String.eqb resourceId (_id user)); [discriminate|].
      destruct (new_ObjectId db resourceId) as [oid|]; cbn;
        [|intros [= <-]; now split].
      destruct (users_findOne db oid); cbn;
        try (intros [= <-]; now split).
      destruct (negb _); [intros [= <-]; now split|discriminate].
Qed.

Lemma resource_gate_failures_witness :
  checkResourceAccess RTProject None (Some boss) "64b000000000000000000001"
  = NextErr (new_AppError "Error checking resource access" 500)
  ∧ checkResourceAccess RTTask (Some broken_db) None "64c000000000000000000002"
    = NextErr (new_AppError "User not authenticated" 401).
Proof.
  split.
  - apply (proj1 (proj2 (resource_gate_failures RTProject None (Some boss)
                           "64b000000000000000000001")));
      [discriminate|reflexivity].
  - apply (proj1 (resource_gate_failures RTTask (Some broken_db) None
                    "64c000000000000000000002")). reflexivity.
Defined.

End AuthFlow.

(** * Properties of the client's auth slice *)

Module AuthSliceProps.
Import AuthSlice.

(** What holds of every state the store can reach. *)
Definition consistent (state : AuthState) : Prop :=
  (isAuthenticated state = true ↔ user state ≠ None)
  ∧ (error state ≠ None →
     isAuthenticated state = false ∧ loading state = false).

Lemma reducer_consistent state action :
  consistent state → consistent (reducer state action).
Proof.
  intros [Hauth Herr]. destruct action; split; cbn; intuition congruence.
Qed.

Lemma fold_consistent actions :
  ∀ state, consistent state → consistent (fold_left reducer actions state).
Proof.
  induction actions as [|a actions IH]; intros state H; [exact H|].
  cbn. apply IH. now apply reducer_consistent.
Qed.

(** Whatever actions are dispatched, in whatever order, the store says it is
    authenticated exactly when it holds a user, and while it shows an error
    it is neither authenticated nor loading. *)
Theorem auth_state_consistent (actions : list Action) :
  let state := dispatch_all actions in
  (isAuthenticated state = true ↔ user state ≠ None)
  ∧ (error state ≠ None →
     isAuthenticated state = false ∧ loading state = false).
Proof.
  apply (fold_consistent actions initialState).
  split; cbn; [split; [discriminate|congruence]|congruence].
Qed.

(** A login attempt decides the session whatever came before: after
    [loginStart] and [loginSuccess] the store holds the new user,
    authenticated, not loading, without error; after [loginStart] and
    [loginFailure] it holds no user and the failure's message, even if a
    user was logged in before the attempt.  A [logout] in the middle of an
    attempt leaves [loading] set. *)
Theorem login_attempt_outcome (actions : list Action) (payload : User)
    (reason : string) :
  dispatch_all (actions ++ [loginStart; loginSuccess payload])
  = mkAuthState (Some payload) true false None
  ∧ dispatch_all (actions ++ [loginStart; loginFailure reason])
    = mkAuthState None false false (Some reason)
  ∧ dispatch_all (actions ++ [loginStart; logout])
    = mkAuthState None false true None.
Proof.
  unfold dispatch_all. rewrite !fold_left_app. cbn. repeat split.
Qed.

End AuthSliceProps.

(** * Properties of the database connection module *)

Module DatabaseProps.
Import Database.

(** [connectDB] resolves exactly when the URI is accepted, the connection
    is made and the ping answers; a rejected [createIndex] never makes it
    fail.  When it resolves, [getDB] returns the handle of the database
    named by DB_NAME (default "devtasks") on the client for MONGODB_URI
    (default "mongodb://localhost:27017/devtasks"). *)
Theorem connectDB_resolves_iff (env : Env) (server : Server) (st : State) :
  let result := connectDB env server st in
  (resolved result = true
   ↔ uri_ok server = true ∧ connect_ok server = true
     ∧ ping_ok server = true)
  ∧ (resolved result = true →
     getDB (state_after result)
     = Some (mkDbHandle
               (mkClient (string_or (MONGODB_URI env)
                            "mongodb://localhost:27017/devtasks"))
               (string_or (DB_NAME env) "devtasks"))
     ∧ getClient (state_after result)
       = Some (mkClient (string_or (MONGODB_URI env)
                           "mongodb://localhost:27017/devtasks"))).
Proof.
  intros result. subst result. unfold connectDB.
  destruct (uri_ok server), (connect_ok server), (ping_ok server);
    cbn [negb];
    try (split; [split; [discriminate|intros (? & ? & ?); discriminate]
                |discriminate]).
  destruct (createIndexes _ _) as [made lines]. cbn.
  split; [tauto|]. intros _. now split.
Qed.

Lemma connectDB_resolves_iff_witness :
  getDB (state_after (connectDB (mkEnv None (Some "devtasks_test"))
                        (mkServer true true true (Some 3%nat)) initial))
  = Some (mkDbHandle (mkClient "mongodb://localhost:27017/devtasks")
            "devtasks_test").
Proof.
  apply (proj2 (connectDB_resolves_iff (mkEnv None (Some "devtasks_test"))
                  (mkServer true true true (Some 3%nat)) initial)).
  reflexivity.
Defined.

(** What a failed [connectDB] leaves behind, starting from the unconnected
    module: when the connection cannot be made the client variable is
    already assigned, so [getClient] returns it while [getDB] throws; when
    only the ping fails the [db] variable is already assigned, so [getDB]
    returns a handle although [connectDB] threw. *)
Theorem connectDB_failure_leaves (env : Env) (server : Server) :
  let result := connectDB env server initial in
  (uri_ok server = false →
   state_after result = initial)
  ∧ (uri_ok server = true → connect_ok server = false →
     resolved result = false
     ∧ getDB (state_after result) = None
     ∧ getClient (state_after result) ≠ None)
  ∧ (uri_ok server = true → connect_ok server = true →
     ping_ok server = false →
     resolved result = false
     ∧ getDB (state_after result) ≠ None).
Proof.
  intros result. subst result. unfold connectDB. split; [|split].
  - intros ->. reflexivity.
  - intros -> ->. cbn. repeat split. discriminate.
  - intros -> -> ->. cbn. split; [reflexivity|discriminate].
Qed.

Lemma connectDB_failure_leaves_witness :
  resolved (connectDB (mkEnv None None) (mkServer true true false None)
              initial) = false
  ∧ getDB (state_after (connectDB (mkEnv None None)
                          (mkServer true true false None) initial)) ≠ None.
Proof.
  apply (proj2 (proj2 (connectDB_failure_leaves (mkEnv None None)
                         (mkServer true true false None))));
    reflexivity.
Defined.

(** [closeDB] assigns nothing: after it, [getDB] and [getClient] answer as
    before, so a module that was connected keeps handing out its handle,
    and [isConnected] then depends on the ping alone. *)
Theorem closeDB_keeps_handles (close_ok : bool) (st : State) :
  let st' := (closeDB close_ok st).1 in
  getDB st' = getDB st
  ∧ getClient st' = getClient st
  ∧ ∀ ping_resolves, isConnected ping_resolves st' = isConnected ping_resolves st.
Proof.
  unfold closeDB. destruct (client st); [destruct close_ok|]; cbn; auto.
Qed.



End DatabaseProps.

(** * More on the schema validator *)

Module ValidationScope.
Import ErrorHandler Validation.

Lemma check_field_agrees date (body1 body2 : gmap string JsValue) errors
    entry :
  body1 !! entry.1 = body2 !! entry.1 →
  check_field date body1 errors entry = check_field date body2 errors entry.
Proof.
  destruct entry as [field rules]. cbn [fst]. intros H.
  unfold check_field, body_get. now rewrite H.
Qed.

(** The validator reads the payload only at the schema's fields: two
    payloads that agree on every field of the rule set get the same
    messages and the same outcome.  In particular fields the rule set does
    not name are never rejected, whatever they hold. *)
Theorem validateBody_reads_schema_fields (date : string → bool)
    (schema : ValidationSchema) (body1 body2 : gmap string JsValue) :
  (∀ field, field ∈ schema.*1 → body1 !! field = body2 !! field) →
  validation_errors date schema body1 = validation_errors date schema body2
  ∧ validateBody date schema body1 = validateBody date schema body2.
Proof.
  intros Hagree.
  assert (Heq : validation_errors date schema body1
                = validation_errors date schema body2).
  { unfold validation_errors. generalize (@nil string) as errors.
    induction schema as [|entry schema IH]; intros errors; [reflexivity|].
    cbn [fold_left].
    rewrite (check_field_agrees date body1 body2).
    - apply IH. intros field Hin. apply Hagree. cbn. now apply elem_of_cons; right.
    - apply Hagree. cbn. apply list_elem_of_here. }
  split; [exact Heq|]. unfold validateBody. now rewrite Heq.
Qed.

Lemma validateBody_reads_schema_fields_witness :
  validateBody (λ _, false) ValidationProps.userSchema
    (<["isAdmin" := JBool true]>
       (<["$where" := JString "sleep(1000)"]> ValidationProps.bad_signup))
  = validateBody (λ _, false) ValidationProps.userSchema
      ValidationProps.bad_signup.
Proof.
  apply (validateBody_reads_schema_fields (λ _, false)
           ValidationProps.userSchema).
  intros field Hin. cbn in Hin.
  repeat (apply elem_of_cons in Hin as [->|Hin]; [reflexivity|]).
  now apply elem_of_nil in Hin.
Defined.

End ValidationScope.
